(** * argparse.hpp: a shallow embedding of [ArgumentParser]

    The header defines one class, [ArgumentParser], with a private
    type-erased container [Any], a private descriptor struct [Argument],
    six data members and a handful of public member functions.  Member
    functions that read or write the members are modelled in a small
    state-and-outcome monad over the record of members; the pure helpers
    ([upper], [Argument::toString], [sanitize]) are plain functions. *)

From Stdlib Require Import String Ascii NArith Lia.
From stdpp Require Import base option list gmap strings.

Local Open Scope string_scope.

(** ** Outcomes of a call

    A call returns normally, leaves by a C++ exception, or has no defined
    behaviour (a null pointer is dereferenced, a vector is indexed past its
    end).  The three exception classes are the ones the header throws. *)

Inductive exception : Type :=
| invalid_argument (what : string)
| out_of_range (what : string)
| bad_cast.

Inductive undefined : Type :=
| null_dereference
| index_past_end.

Inductive outcome (A : Type) : Type :=
| Ok (a : A)
| Throw (e : exception)
| Undefined (u : undefined).

Arguments Ok {A} a.
Arguments Throw {A} e.
Arguments Undefined {A} u.

Definition returns {A} (o : outcome A) : Prop := exists a, o = Ok a.
Definition throws {A} (o : outcome A) : Prop := exists e, o = Throw e.

(** ** std::string helpers *)

Definition newline : string := String "010"%char "".

(** [std::string(n, ' ')] *)
Fixpoint spaces (n : nat) : string :=
  match n with
  | O => ""
  | S n' => String " "%char (spaces n')
  end.

(** [s[i]] for [i < s.size()]; the terminating NUL at [i = s.size()]. *)
Definition char_at (s : string) (i : nat) : ascii :=
  match String.get i s with
  | Some c => c
  | None => zero
  end.

Fixpoint drop_chars (pos : nat) (s : string) : string :=
  match pos, s with
  | O, _ => s
  | S pos', String _ s' => drop_chars pos' s'
  | S _, EmptyString => EmptyString
  end.

(** [s.substr(pos)]: the tail from [pos]; [std::out_of_range] when
    [pos > s.size()]. *)
Definition substr (s : string) (pos : nat) : outcome string :=
  if (String.length s <? pos)%nat then Throw (out_of_range "basic_string::substr")
  else Ok (drop_chars pos s).

(** [std::string(s.c_str())]: a C string ends at the first NUL byte. *)
Fixpoint c_str (s : string) : string :=
  match s with
  | EmptyString => EmptyString
  | String c s' => if Ascii.eqb c zero then EmptyString else String c (c_str s')
  end.

Definition empty_str (s : string) : bool :=
  match s with
  | EmptyString => true
  | String _ _ => false
  end.

(** [::toupper] in the "C" locale: the 26 lower-case letters move to upper
    case, every other byte is returned as it is. *)
Definition toupper (c : ascii) : ascii :=
  let v := nat_of_ascii c in
  if ((97 <=? v) && (v <=? 122))%nat then ascii_of_nat (v - 32) else c.

(** [upper]: [std::transform] of [::toupper] over a copy of the string. *)
Fixpoint upper (s : string) : string :=
  match s with
  | EmptyString => EmptyString
  | String c s' => String (toupper c) (upper s')
  end.

(** ** Type erasure: [ArgumentParser::Any]

    [PlaceHolder] is the abstract base and [Holder<ValueType>] its concrete
    instantiation.  The parser instantiates [Holder] at [std::string] and at
    [std::vector<std::string>] only; [ty_other] stands for the [typeid] of
    any other [ValueType] a caller may pass to [retrieve]. *)

Inductive type_info_t : Type := ty_string | ty_vector | ty_other.

Definition type_info_eqb (a b : type_info_t) : bool :=
  match a, b with
  | ty_string, ty_string | ty_vector, ty_vector | ty_other, ty_other => true
  | _, _ => false
  end.

Inductive PlaceHolder : Type :=
| Holder_string (held_ : string)
| Holder_vector (held_ : list string).

Definition type_info (h : PlaceHolder) : type_info_t :=
  match h with
  | Holder_string _ => ty_string
  | Holder_vector _ => ty_vector
  end.

(** [content] is a [PlaceHolder*]; [None] is the null pointer. *)
Record Any : Type := { content : option PlaceHolder }.

(** [Any() : content(0)] *)
Definition Any_default : Any := {| content := None |}.

(** [Any(const ValueType& other) : content(new Holder<ValueType>(other))] *)
Definition Any_of (h : PlaceHolder) : Any := {| content := Some h |}.

(** [Any(const Any& other)]: clones the holder when there is one. *)
Definition Any_copy (other : Any) : Any :=
  {| content := match content other with
                | Some h => Some h
                | None => None
                end |}.

(** [swap], lines 63-66: the two [content] pointers change places; the
    result is the pair (this, other) after the call. *)
Definition Any_swap (this other : Any) : Any * Any :=
  ({| content := content other |}, {| content := content this |}).

(** [operator=(const Any& rhs)], lines 67-70: [tmp] is a copy of [rhs], is
    swapped with [*this] and takes the old content away with it. *)
Definition Any_assign (this rhs : Any) : Any :=
  let tmp := Any_copy rhs in
  fst (Any_swap this tmp).

(** [operator=(const ValueType& rhs)], lines 71-75. *)
Definition Any_assign_value (this : Any) (rhs : PlaceHolder) : Any :=
  let tmp := Any_of rhs in
  fst (Any_swap this tmp).

(** [toPtr<ValueType>()]: calls [content->type_info()] without looking at
    [content] first; the result is the address of [held_] or the null
    pointer. *)
Definition toPtr (T : type_info_t) (a : Any) : outcome (option PlaceHolder) :=
  match content a with
  | None => Undefined null_dereference
  | Some h => if type_info_eqb (type_info h) T then Ok (Some h) else Ok None
  end.

(** [castTo<ValueType>()]: [result ? *result : throw std::bad_cast()].  The
    value returned is the holder's [held_], kept with its tag. *)
Definition castTo (T : type_info_t) (a : Any) : outcome PlaceHolder :=
  match toPtr T a with
  | Ok (Some h) => Ok h
  | Ok None => Throw bad_cast
  | Throw e => Throw e
  | Undefined u => Undefined u
  end.

(** ** [struct Argument]

    The anonymous union of [fixed_nargs] and [variable_nargs], with the
    flag [fixed] saying which member is live, is a tagged union. *)

Inductive nargs_t : Type :=
| fixed_nargs (n : N)
| variable_nargs (c : ascii).

Record Argument : Type := {
  short_name : string;
  name : string;
  optional : bool;
  nargs : nargs_t
}.

Definition fixed (a : Argument) : bool :=
  match nargs a with
  | fixed_nargs _ => true
  | variable_nargs _ => false
  end.

(** [fixed_nargs = nargs] converts a [char] to [size_t].  [char] is taken
    signed and [size_t] 64 bits wide, as on x86-64: bytes from 128 up are
    negative and wrap around. *)
Definition size_t_of_char (c : ascii) : N :=
  let v := N_of_ascii c in
  if (v <? 128)%N then v else (2 ^ 64 - 256 + v)%N.

(** The constructor [Argument(_short_name, _name, _optional, nargs)]. *)
Definition mkArgument (_short_name _name : string) (_optional : bool)
    (n : ascii) : Argument :=
  {| short_name := _short_name;
     name := _name;
     optional := _optional;
     nargs := if Ascii.eqb n "+" || Ascii.eqb n "*"
              then variable_nargs n
              else fixed_nargs (size_t_of_char n) |}.

(** The loop [for (n = 0; n < N; ++n) s << " " << uname]. *)
Fixpoint put_placeholders (n : nat) (uname s : string) : string :=
  match n with
  | O => s
  | S n' => put_placeholders n' uname (s +:+ " " +:+ uname)
  end.

(** [Argument::toString]; [s] is the [std::ostringstream]. *)
Definition toString (a : Argument) : string :=
  let uname := if empty_str (name a) then upper (short_name a)
               else upper (name a) in
  let s := "" in
  let s := if optional a then s +:+ "[" else s in
  let s := if negb (empty_str (name a)) then s +:+ "--" +:+ name a
           else s +:+ "-" +:+ short_name a in
  let s :=
    match nargs a with
    | fixed_nargs fn =>
        let N := N.min 3 fn in
        let s := put_placeholders (N.to_nat N) uname s in
        if (N <? fn)%N then s +:+ " ..." else s
    | variable_nargs c =>
        let s := s +:+ " " in
        let s := if Ascii.eqb c "*" then s +:+ "[" else s in
        let s := s +:+ uname +:+ " " in
        let s := if Ascii.eqb c "+" then s +:+ "[" else s in
        s +:+ uname +:+ "...]"
    end in
  if optional a then s +:+ "]" else s.

(** ** The members of [ArgumentParser]

    [IndexMap] is a map from [std::string] to [size_t]; only lookups by key
    are used, so the hash map and the tree map of the two language levels
    agree.  The class has no constructor: a default-initialised parser has
    empty containers and strings and an indeterminate [ignore_first_], which
    is a parameter of [new_parser]. *)

Record ArgumentParser : Type := {
  index_ : gmap string nat;
  ignore_first_ : bool;
  app_name_ : string;
  final_name_ : string;
  arguments_ : list Argument;
  variables_ : list Any
}.

Definition new_parser (ignore_first : bool) : ArgumentParser :=
  {| index_ := ∅;
     ignore_first_ := ignore_first;
     app_name_ := "";
     final_name_ := "";
     arguments_ := [];
     variables_ := [] |}.

(** ** Member functions as state transformers

    A member function maps the members before the call to an outcome and
    the members after it; an exception leaves the object as it was when the
    exception was thrown. *)

Definition M (A : Type) : Type := ArgumentParser -> outcome A * ArgumentParser.

#[global] Instance M_ret : MRet M := fun A a p => (Ok a, p).

#[global] Instance M_bind : MBind M := fun A B f m p =>
  match m p with
  | (Ok a, p') => f a p'
  | (Throw e, p') => (Throw e, p')
  | (Undefined u, p') => (Undefined u, p')
  end.

Definition lift {A} (o : outcome A) : M A := fun p => (o, p).

(** [insertArgument], lines 154-161. *)
Definition insertArgument (arg : Argument) : M unit := fun p =>
  let N := length (arguments_ p) in
  let arguments := (arguments_ p ++ [arg])%list in
  let variables := variables_ p in
  let variables := if fixed arg
                   then (variables ++ [Any_of (Holder_string "")])%list
                   else variables in
  let variables := if negb (fixed arg)
                   then (variables ++ [Any_of (Holder_vector [])])%list
                   else variables in
  let index := index_ p in
  let index := if negb (empty_str (short_name arg))
               then <[short_name arg := N]> index else index in
  let index := if negb (empty_str (name arg))
               then <[name arg := N]> index else index in
  (Ok tt, {| index_ := index;
             ignore_first_ := ignore_first_ p;
             app_name_ := app_name_ p;
             final_name_ := final_name_ p;
             arguments_ := arguments;
             variables_ := variables |}).

(** [sanitize], lines 197-218.  The message of [std::invalid_argument] is
    built as a [std::string] and passed on through [c_str()]. *)
Definition sanitize (nm : string) : outcome string :=
  if (String.length nm =? 2)%nat then
    if Ascii.eqb (char_at nm 0) "-" then substr nm 1
    else Throw (invalid_argument
                  (c_str ("Invalid argument: " +:+ nm
                          +:+ ". Short names must begin with '-'")))
  else if (2 <? String.length nm)%nat then
    if Ascii.eqb (char_at nm 0) "-" && Ascii.eqb (char_at nm 1) "-"
    then substr nm 2
    else Throw (invalid_argument
                  (c_str ("Invalid argument: " +:+ nm
                          +:+ ". Multi-character names must begin with '--'")))
  else Throw (invalid_argument "Argument specifier has the wrong format").

(** [appName] and [ignoreFirstArgument]. *)
Definition appName (nm : string) : M unit := fun p =>
  (Ok tt, {| index_ := index_ p;
             ignore_first_ := ignore_first_ p;
             app_name_ := nm;
             final_name_ := final_name_ p;
             arguments_ := arguments_ p;
             variables_ := variables_ p |}).

Definition ignoreFirstArgument (ignore_first : bool) : M unit := fun p =>
  (Ok tt, {| index_ := index_ p;
             ignore_first_ := ignore_first;
             app_name_ := app_name_ p;
             final_name_ := final_name_ p;
             arguments_ := arguments_ p;
             variables_ := variables_ p |}).

(** [addArgument(name, nargs, optional)], lines 177-185. *)
Definition addArgument (nm : string) (n : ascii) (opt : bool) : M unit :=
  if (2 <? String.length nm)%nat then
    bare ← lift (sanitize nm);
    insertArgument (mkArgument "" bare opt n)
  else
    bare ← lift (sanitize nm);
    insertArgument (mkArgument bare "" opt n).

(** [addArgument(short_name, name, nargs, optional)], lines 186-189.  The
    two calls of [sanitize] are unsequenced in C++; both only read their
    argument, and they are taken left to right here.  A compiler may run
    them right to left (g++ does): when both names are refused, the message
    of the exception is then the one for [name]; the class of the exception
    and the parser are the same either way. *)
Definition addArgument2 (short_nm nm : string) (n : ascii) (opt : bool)
    : M unit :=
  bare_short ← lift (sanitize short_nm);
  bare ← lift (sanitize nm);
  insertArgument (mkArgument bare_short bare opt n).

(** [addFinalArgument], lines 190-194: the name is stored as it is given. *)
Definition addFinalArgument (nm : string) (n : ascii) (opt : bool) : M unit :=
  fun p =>
  insertArgument (mkArgument "" nm opt n)
    {| index_ := index_ p;
       ignore_first_ := ignore_first_ p;
       app_name_ := app_name_ p;
       final_name_ := nm;
       arguments_ := arguments_ p;
       variables_ := variables_ p |}.

(** [parse(const std::vector<std::string>&)], lines 228-231. *)
Definition parse (argv : list string) : M unit := fun p =>
  match argv with
  | argv0 :: _ =>
      if empty_str (app_name_ p) && negb (ignore_first_ p)
      then (Ok tt, {| index_ := index_ p;
                      ignore_first_ := ignore_first_ p;
                      app_name_ := argv0;
                      final_name_ := final_name_ p;
                      arguments_ := arguments_ p;
                      variables_ := variables_ p |})
      else (Ok tt, p)
  | [] => (Ok tt, p)
  end.

(** [parse(size_t argc, const char** argv)] builds the vector of the
    [argc] C strings and calls the function above. *)

(** [retrieve<T>(name)], lines 236-241. *)
Definition retrieve (T : type_info_t) (nm : string) : M PlaceHolder := fun p =>
  match index_ p !! nm with
  | None => (Throw (out_of_range "Key not found"), p)
  | Some N =>
      match variables_ p !! N with
      | None => (Undefined index_past_end, p)
      | Some v => (castTo T v, p)
      end
  end.

(** [empty], [clear], [exists] and [count], lines 294-315.  [clear] leaves
    [app_name_], [final_name_] and [ignore_first_] alone. *)
Definition empty : M bool := fun p =>
  (Ok (bool_decide (index_ p = ∅)), p).

Definition clear : M unit := fun p =>
  (Ok tt, {| index_ := ∅;
             ignore_first_ := ignore_first_ p;
             app_name_ := app_name_ p;
             final_name_ := final_name_ p;
             arguments_ := [];
             variables_ := [] |}).

Definition exists_ (nm : string) : M bool := fun p =>
  (Ok (bool_decide (is_Some (index_ p !! nm))), p).

Definition count (nm : string) : M nat := fun p =>
  match index_ p !! nm with
  | None => (Ok 0, p)
  | Some N =>
      match arguments_ p !! N, variables_ p !! N with
      | Some arg, Some v =>
          let var := Any_copy v in
          if fixed arg then
            match castTo ty_string var with
            | Ok (Holder_string s) => (Ok (if empty_str s then 0 else 1), p)
            | Ok (Holder_vector _) => (Throw bad_cast, p)
            | Throw e => (Throw e, p)
            | Undefined u => (Undefined u, p)
            end
          else
            match castTo ty_vector var with
            | Ok (Holder_vector l) => (Ok (length l), p)
            | Ok (Holder_string _) => (Throw bad_cast, p)
            | Throw e => (Throw e, p)
            | Undefined u => (Undefined u, p)
            end
      | _, _ => (Undefined index_past_end, p)
      end
  end.

(** ** [usage], lines 246-293

    [help] is the [std::ostringstream], [linelength] the running counter,
    and [cout] what the second loop prints to [std::cout] (one number and
    [std::endl] per optional descriptor). *)

Record usage_state : Type := {
  help : string;
  linelength : nat;
  cout : list nat
}.

(** The wrap test and the write shared by both loops (lines 259-265 and
    275-281). *)
Definition put_argument (indent : nat) (argstr : string) (st : usage_state)
    : usage_state :=
  let st :=
    if (80 <? String.length argstr + linelength st)%nat
    then {| help := help st +:+ newline +:+ spaces indent;
            linelength := 0;
            cout := cout st |}
    else {| help := help st;
            linelength := linelength st + String.length argstr;
            cout := cout st |} in
  {| help := help st +:+ argstr +:+ " ";
     linelength := linelength st;
     cout := cout st |}.

(** First loop: the required arguments. *)
Fixpoint required_arguments (final_name : string) (indent : nat)
    (args : list Argument) (st : usage_state) : usage_state :=
  match args with
  | [] => st
  | arg :: rest =>
      if optional arg then required_arguments final_name indent rest st
      else if String.eqb (name arg) final_name
      then required_arguments final_name indent rest st
      else required_arguments final_name indent rest
             (put_argument indent (toString arg) st)
  end.

(** Second loop: the optional arguments; line 274 prints first. *)
Fixpoint optional_arguments (final_name : string) (indent : nat)
    (args : list Argument) (st : usage_state) : usage_state :=
  match args with
  | [] => st
  | arg :: rest =>
      if negb (optional arg) then optional_arguments final_name indent rest st
      else if String.eqb (name arg) final_name
      then optional_arguments final_name indent rest st
      else
        let st := {| help := help st;
                     linelength := linelength st;
                     cout := (cout st ++ [String.length (help st) mod 80])%list |} in
        optional_arguments final_name indent rest
          (put_argument indent (toString arg) st)
  end.

Definition usage_prefix (p : ArgumentParser) : string :=
  "Usage: " +:+ app_name_ p +:+ " ".

(** The state of the formatter when both loops are done. *)
Definition usage_loops (p : ArgumentParser) : usage_state :=
  let indent := String.length (usage_prefix p) in
  let st := {| help := usage_prefix p; linelength := 0; cout := [] |} in
  let st := required_arguments (final_name_ p) indent (arguments_ p) st in
  optional_arguments (final_name_ p) indent (arguments_ p) st.

(** [index_[key]]: [operator[]] adds the key with value 0 when it is not
    in the map. *)
Definition index_subscript (key : string) (index : gmap string nat)
    : nat * gmap string nat :=
  match index !! key with
  | Some N => (N, index)
  | None => (0, <[key := 0]> index)
  end.

Definition usage : M string := fun p =>
  let indent := String.length (usage_prefix p) in
  let st := usage_loops p in
  if negb (empty_str (final_name_ p)) then
    let '(N, index) := index_subscript (final_name_ p) (index_ p) in
    let p' := {| index_ := index;
                 ignore_first_ := ignore_first_ p;
                 app_name_ := app_name_ p;
                 final_name_ := final_name_ p;
                 arguments_ := arguments_ p;
                 variables_ := variables_ p |} in
    match arguments_ p !! N with
    | None => (Undefined index_past_end, p')
    | Some arg =>
        let argstr := toString arg in
        let h := if (80 <? String.length argstr
                             + String.length (help st) mod 80)%nat
                 then help st +:+ newline +:+ spaces indent
                 else help st in
        (Ok (h +:+ argstr), p')
    end
  else (Ok (help st), p).

(** What one call of [usage] prints to [std::cout]. *)
Definition usage_cout (p : ArgumentParser) : list nat := cout (usage_loops p).

(** Running a client program and looking at its result only. *)
Definition run {A} (m : M A) (p : ArgumentParser) : outcome A := fst (m p).
Definition exec {A} (m : M A) (p : ArgumentParser) : ArgumentParser := snd (m p).

(** * Vocabulary of the statements

    Nothing below is in the header.  These definitions name what the
    properties speak of: the slot a descriptor starts with, the names it is
    indexed under, the pieces of a rendered descriptor, the descriptors the
    loops of [usage] write, line breaks, the consistency of a parser built
    through the public member functions, and a few sample parsers. *)

(** The slot [insertArgument] pushes for a descriptor. *)
Definition slot_of (arg : Argument) : Any :=
  if fixed arg then Any_of (Holder_string "") else Any_of (Holder_vector []).

(** The non-empty names under which a descriptor is indexed. *)
Definition indexed_as (arg : Argument) (k : string) : Prop :=
  k <> "" /\ (k = short_name arg \/ k = name arg).

(** [::isalnum] in the "C" locale.  The header never calls it; it is here
    to say what an alphanumeric character is. *)
Definition isalnum (c : ascii) : bool :=
  let v := nat_of_ascii c in
  ((48 <=? v) && (v <=? 57) || (65 <=? v) && (v <=? 90)
   || (97 <=? v) && (v <=? 122))%nat.

(** Sample parsers: one long name, one final argument, one short name
    with fixed count 1. *)
Definition one_long_name : ArgumentParser :=
  exec (addArgument "--name" zero true) (new_parser false).

Definition one_final : ArgumentParser :=
  exec (addFinalArgument "source" (ascii_of_nat 1) false) (new_parser false).

Definition one_short_name : ArgumentParser :=
  exec (addArgument "-x" (ascii_of_nat 1) true) (new_parser false).

(** The rendering rule in closed form: the pieces a rendered descriptor is
    made of. *)
Fixpoint repeat_str (n : nat) (s : string) : string :=
  match n with
  | O => ""
  | S n' => s +:+ repeat_str n' s
  end.

Definition placeholder (a : Argument) : string :=
  upper (if empty_str (name a) then short_name a else name a).

Definition dashed_name (a : Argument) : string :=
  if empty_str (name a) then "-" +:+ short_name a else "--" +:+ name a.

Definition bracketed (opt : bool) (s : string) : string :=
  if opt then "[" +:+ s +:+ "]" else s.

(** The descriptors each loop writes, by the tests at its head. *)
Definition listed_required (final_name : string) (arg : Argument) : bool :=
  negb (optional arg) && negb (String.eqb (name arg) final_name).

Definition listed_optional (final_name : string) (arg : Argument) : bool :=
  optional arg && negb (String.eqb (name arg) final_name).

(** The order in which the two loops write the descriptors. *)
Definition usage_order (p : ArgumentParser) : list Argument :=
  (List.filter (listed_required (final_name_ p)) (arguments_ p)
   ++ List.filter (listed_optional (final_name_ p)) (arguments_ p))%list.

(** Writing a list of rendered descriptors, one after the other. *)
Definition put_arguments (indent : nat) (strs : list string)
    (st : usage_state) : usage_state :=
  fold_left (fun st argstr => put_argument indent argstr st) strs st.

(** What of the formatter's state goes into the returned string. *)
Definition text (st : usage_state) : string * nat := (help st, linelength st).

(** The line break of lines 260 and 276. *)
Definition line_break (indent : nat) : string := newline +:+ spaces indent.

(** The number of line breaks in a string. *)
Fixpoint count_newlines (s : string) : nat :=
  match s with
  | EmptyString => 0
  | String c s' => (if Ascii.eqb c "010" then 1 else 0) + count_newlines s'
  end.

(** The rendered forms of a list of descriptors, in characters. *)
Definition rendered_total (args : list Argument) : nat :=
  fold_right (fun arg n => String.length (toString arg) + n) 0 args.

(** Two required descriptors with long names of 38 and 37 characters and
    one required descriptor with a short name and fixed count 2. *)
Definition two_long_one_short (ignore_first : bool) : ArgumentParser :=
  exec (addArgument "--aaaaaaaaaaaaaaaaaaaaaaaaaaaaaaaaaaaaaa" zero false;;
        addArgument "--bbbbbbbbbbbbbbbbbbbbbbbbbbbbbbbbbbbbb" zero false;;
        addArgument "-x" (ascii_of_nat 2) false)
       (new_parser ignore_first).

(** An optional and a required descriptor, both with a short name only. *)
Definition short_names_only (ignore_first : bool) : ArgumentParser :=
  exec (addArgument "-v" zero true;;
        addArgument "-n" (ascii_of_nat 1) false)
       (new_parser ignore_first).

(** Every slot is created by [insertArgument] and nothing in the class
    writes to a slot afterwards: the slots of a parser are the initial
    values of its descriptors, and the index points into the descriptor
    list. *)
Record consistent (p : ArgumentParser) : Prop := {
  slots_initial : variables_ p = map slot_of (arguments_ p);
  index_in_range :
    forall k N, index_ p !! k = Some N -> N < length (arguments_ p)
}.

(** The calls a client can make on a parser, and a client's view of the
    parsers it can hold: a default-initialised parser, and what a call
    whose behaviour is defined leaves behind, whether it returned or
    threw. *)
Inductive call : Type :=
| call_appName (nm : string)
| call_addArgument (nm : string) (n : ascii) (opt : bool)
| call_addArgument2 (short_nm nm : string) (n : ascii) (opt : bool)
| call_addFinalArgument (nm : string) (n : ascii) (opt : bool)
| call_ignoreFirstArgument (ignore_first : bool)
| call_parse (argv : list string)
| call_retrieve (T : type_info_t) (nm : string)
| call_usage
| call_empty
| call_clear
| call_exists (nm : string)
| call_count (nm : string).

Definition discard {A} (m : M A) : M unit := m ≫= fun _ => mret tt.

Definition perform (c : call) : M unit :=
  match c with
  | call_appName nm => appName nm
  | call_addArgument nm n opt => addArgument nm n opt
  | call_addArgument2 short_nm nm n opt => addArgument2 short_nm nm n opt
  | call_addFinalArgument nm n opt => addFinalArgument nm n opt
  | call_ignoreFirstArgument b => ignoreFirstArgument b
  | call_parse argv => parse argv
  | call_retrieve T nm => discard (retrieve T nm)
  | call_usage => discard usage
  | call_empty => discard empty
  | call_clear => clear
  | call_exists nm => discard (exists_ nm)
  | call_count nm => discard (count nm)
  end.

Inductive reachable : ArgumentParser -> Prop :=
| reachable_new (ignore_first : bool) : reachable (new_parser ignore_first)
| reachable_call (c : call) (p : ArgumentParser) :
    reachable p ->
    (forall u, run (perform c) p <> Undefined u) ->
    reachable (exec (perform c) p).

(** The strings of a list, one after the other. *)
Fixpoint concat_str (l : list string) : string :=
  match l with
  | [] => ""
  | s :: l' => s +:+ concat_str l'
  end.

(** A parser with another descriptor list. *)
Definition with_arguments (args : list Argument) (p : ArgumentParser)
    : ArgumentParser :=
  {| index_ := index_ p;
     ignore_first_ := ignore_first_ p;
     app_name_ := app_name_ p;
     final_name_ := final_name_ p;
     arguments_ := args;
     variables_ := variables_ p |}.

(** The descriptor [addArgument(name, nargs, optional)] builds from a bare
    name. *)
Definition declared (nm bare : string) (n : ascii) (opt : bool) : Argument :=
  if (2 <? String.length nm)%nat
  then mkArgument "" bare opt n
  else mkArgument bare "" opt n.

(** Sample parsers: a final argument declared and the parser cleared; the
    same with one more declaration; three long names of 85 rendered
    characters. *)
Definition final_then_clear : ArgumentParser :=
  exec (addFinalArgument "file" (ascii_of_nat 1) false;; clear)
       (new_parser false).

Definition final_clear_declare : ArgumentParser :=
  exec (addArgument "--all" zero true) final_then_clear.

Definition three_long_names : ArgumentParser :=
  exec (addArgument "--aaaaaaaaaaaaaaaaaaaaaaaaaaaaaaaaaaaaaa" zero false;;
        addArgument "--bbbbbbbbbbbbbbbbbbbbbbbbbbbbbbbbbbbbb" zero false;;
        addArgument "--cccc" zero false)
       (new_parser false).

(** * Properties *)

(** ** Strings and the monad *)

Lemma app_cons_s (x : ascii) (a b : string) :
  String x a +:+ b = String x (a +:+ b).
Proof. reflexivity. Qed.

Lemma app_nil_l_s (a : string) : "" +:+ a = a.
Proof. reflexivity. Qed.

Lemma app_assoc_s (a b c : string) : (a +:+ b) +:+ c = a +:+ b +:+ c.
Proof.
  induction a as [|x a IH]; [reflexivity|].
  rewrite !app_cons_s. now rewrite IH.
Qed.

Lemma app_nil_r_s (a : string) : a +:+ "" = a.
Proof.
  induction a as [|x a IH]; [reflexivity|].
  rewrite app_cons_s. now rewrite IH.
Qed.

Lemma length_app_s (a b : string) :
  String.length (a +:+ b) = String.length a + String.length b.
Proof.
  induction a as [|x a IH]; [reflexivity|].
  rewrite app_cons_s. cbn. now rewrite IH.
Qed.

Lemma empty_str_true (s : string) : empty_str s = true <-> s = "".
Proof. destruct s; cbn; split; congruence. Qed.

Lemma empty_str_false (s : string) : empty_str s = false <-> s <> "".
Proof. destruct s; cbn; split; congruence. Qed.

Lemma bind_Ok {A B} (m : M A) (f : A -> M B) p a p' :
  m p = (Ok a, p') -> (m ≫= f) p = f a p'.
Proof. intros H. unfold mbind, M_bind. now rewrite H. Qed.

Lemma bind_Throw {A B} (m : M A) (f : A -> M B) p e p' :
  m p = (Throw e, p') -> (m ≫= f) p = (Throw e, p').
Proof. intros H. unfold mbind, M_bind. now rewrite H. Qed.

Lemma lift_Ok {A} (o : outcome A) a p : o = Ok a -> lift o p = (Ok a, p).
Proof. now intros ->. Qed.

(** ** [parse] *)

(** C2.  [parse] always returns normally and leaves the descriptor list,
    the value slots, the name index (and the final name and the
    ignore-first flag) as they were.  When the stored program name is
    empty, the ignore-first flag is false and the token list is not empty,
    the program name becomes the first token; in every other case the
    parser is left exactly as it was. *)
Theorem parse_frame (argv : list string) (p : ArgumentParser) :
  let p' := exec (parse argv) p in
  run (parse argv) p = Ok tt /\
  arguments_ p' = arguments_ p /\
  variables_ p' = variables_ p /\
  index_ p' = index_ p /\
  final_name_ p' = final_name_ p /\
  ignore_first_ p' = ignore_first_ p /\
  ((app_name_ p = "" /\ ignore_first_ p = false /\ argv <> []) ->
     head argv = Some (app_name_ p')) /\
  (~ (app_name_ p = "" /\ ignore_first_ p = false /\ argv <> []) ->
     p' = p).
Proof.
  unfold exec, run, parse.
  destruct argv as [|argv0 rest]; cbn.
  - repeat split; try reflexivity. intros (_ & _ & H). now elim H.
  - destruct (empty_str (app_name_ p)) eqn:Hname;
      destruct (ignore_first_ p) eqn:Hign; cbn;
      repeat split; try reflexivity; try tauto;
      try (intros (? & ? & _); congruence);
      try (apply empty_str_false in Hname; intros (? & _); congruence).
    intros H. elim H. apply empty_str_true in Hname. repeat split; congruence.
Qed.

Lemma parse_frame_witness :
  head ["prog"; "-x"; "v"]
  = Some (app_name_ (exec (parse ["prog"; "-x"; "v"]) (new_parser false))) /\
  exec (parse ["prog"; "-x"; "v"]) (new_parser true) = new_parser true.
Proof.
  destruct (parse_frame ["prog"; "-x"; "v"] (new_parser false))
    as (_ & _ & _ & _ & _ & _ & Hset & _).
  destruct (parse_frame ["prog"; "-x"; "v"] (new_parser true))
    as (_ & _ & _ & _ & _ & _ & _ & Hkeep).
  split.
  - apply Hset. repeat split; discriminate.
  - apply Hkeep. intros (_ & H & _). discriminate H.
Defined.

(** ** Extraction from [Any] and [retrieve] *)

Lemma castTo_type T a h : castTo T a = Ok h -> type_info h = T.
Proof.
  unfold castTo, toPtr. destruct (content a) as [h'|]; [|discriminate].
  destruct (type_info_eqb (type_info h') T) eqn:E; [|discriminate].
  intros [= <-]. destruct h', T; cbn in *; congruence.
Qed.

Lemma castTo_held T a h : castTo T a = Ok h -> content a = Some h.
Proof.
  unfold castTo, toPtr. destruct (content a) as [h'|]; [|discriminate].
  destruct (type_info_eqb (type_info h') T); [|discriminate]. congruence.
Qed.

(** On a default-constructed [Any] both [toPtr] and [castTo] call
    [type_info] through the null [content]: whatever shape is asked for,
    the call has no defined behaviour and no exception is thrown.  The copy
    constructor, which does look at [content] first, copies the same value
    without harm. *)
Lemma castTo_default_undefined (T : type_info_t) :
  toPtr T Any_default = Undefined null_dereference /\
  castTo T Any_default = Undefined null_dereference /\
  ~ throws (castTo T Any_default) /\
  Any_copy Any_default = Any_default.
Proof.
  repeat split. intros [e H]. discriminate H.
Qed.

(** C6.  When [nm] resolves to a slot that holds a single string,
    [retrieve] asked for the sequence shape throws [std::bad_cast] and
    returns no value; when [nm] is not in the index, [retrieve] throws
    [std::out_of_range] whatever shape is asked for.  Neither call changes
    the parser. *)
Theorem retrieve_errors (p : ArgumentParser) (nm : string) (N : nat)
    (s : string) :
  (index_ p !! nm = Some N ->
   variables_ p !! N = Some (Any_of (Holder_string s)) ->
   retrieve ty_vector nm p = (Throw bad_cast, p)) /\
  (index_ p !! nm = None ->
   forall T, retrieve T nm p = (Throw (out_of_range "Key not found"), p)).
Proof.
  split.
  - intros Hi Hv. unfold retrieve. now rewrite Hi, Hv.
  - intros Hi T. unfold retrieve. now rewrite Hi.
Qed.

(** ** Declaration *)

Lemma insertArgument_run arg p : run (insertArgument arg) p = Ok tt.
Proof. reflexivity. Qed.

Lemma insertArgument_eq arg p :
  insertArgument arg p = (Ok tt, exec (insertArgument arg) p).
Proof. reflexivity. Qed.

Lemma insertArgument_arguments arg p :
  arguments_ (exec (insertArgument arg) p) = (arguments_ p ++ [arg])%list.
Proof. reflexivity. Qed.

Lemma insertArgument_variables arg p :
  variables_ (exec (insertArgument arg) p)
  = (variables_ p ++ [slot_of arg])%list.
Proof.
  unfold exec, insertArgument, slot_of. cbn.
  now destruct (fixed arg).
Qed.

Lemma insertArgument_frame arg p :
  let p' := exec (insertArgument arg) p in
  app_name_ p' = app_name_ p /\ final_name_ p' = final_name_ p /\
  ignore_first_ p' = ignore_first_ p.
Proof. now cbn. Qed.

Lemma insertArgument_index arg p :
  index_ (exec (insertArgument arg) p)
  = let N := length (arguments_ p) in
    let index := if empty_str (short_name arg) then index_ p
                 else <[short_name arg := N]> (index_ p) in
    if empty_str (name arg) then index else <[name arg := N]> index.
Proof.
  unfold exec, insertArgument. cbn.
  now destruct (empty_str (short_name arg)), (empty_str (name arg)).
Qed.

Lemma insertArgument_index_new arg p k :
  indexed_as arg k ->
  index_ (exec (insertArgument arg) p) !! k = Some (length (arguments_ p)).
Proof.
  intros [Hk Hor]. rewrite insertArgument_index. cbn zeta.
  destruct (empty_str (name arg)) eqn:En.
  - apply empty_str_true in En.
    destruct Hor as [-> | ->]; [|congruence].
    apply empty_str_false in Hk. rewrite Hk. apply lookup_insert_eq.
  - destruct (decide (k = name arg)) as [-> | Hne].
    + apply lookup_insert_eq.
    + rewrite lookup_insert_ne by congruence.
      destruct Hor as [-> | ->]; [|congruence].
      apply empty_str_false in Hk. rewrite Hk. apply lookup_insert_eq.
Qed.

Lemma insertArgument_index_old arg p k :
  ~ indexed_as arg k ->
  index_ (exec (insertArgument arg) p) !! k = index_ p !! k.
Proof.
  intros Hk. rewrite insertArgument_index. cbn zeta.
  destruct (empty_str (name arg)) eqn:En;
    destruct (empty_str (short_name arg)) eqn:Es;
    rewrite ?lookup_insert_ne; auto;
    intros <-; apply Hk; split; auto;
    apply empty_str_false; assumption.
Qed.

(** [sanitize] on the three ranges of [name.size()]. *)

Lemma drop_chars_app (a b : string) : drop_chars (String.length a) (a +:+ b) = b.
Proof. induction a as [|x a IH]; [now destruct b|]. exact IH. Qed.

Lemma sanitize_two (a b : ascii) :
  sanitize (String a (String b ""))
  = if Ascii.eqb a "-" then Ok (String b "")
    else Throw (invalid_argument
                  (c_str ("Invalid argument: " +:+ String a (String b "")
                          +:+ ". Short names must begin with '-'"))).
Proof. unfold sanitize. cbn. now destruct (Ascii.eqb a "-"). Qed.

Lemma sanitize_long (a b c : ascii) (s : string) :
  sanitize (String a (String b (String c s)))
  = if Ascii.eqb a "-" && Ascii.eqb b "-" then Ok (String c s)
    else Throw (invalid_argument
                  (c_str ("Invalid argument: " +:+ String a (String b (String c s))
                          +:+ ". Multi-character names must begin with '--'"))).
Proof.
  unfold sanitize, substr. cbn [String.length Nat.eqb Nat.ltb Nat.leb].
  cbn [char_at String.get drop_chars].
  now destruct (Ascii.eqb a "-" && Ascii.eqb b "-").
Qed.

Lemma sanitize_nonempty nm bare : sanitize nm = Ok bare -> bare <> "".
Proof.
  destruct nm as [|a [|b [|c s]]]; try discriminate.
  - rewrite sanitize_two. destruct (Ascii.eqb a "-"); [|discriminate].
    now intros [= <-].
  - rewrite sanitize_long.
    destruct (Ascii.eqb a "-" && Ascii.eqb b "-"); [|discriminate].
    now intros [= <-].
Qed.

Lemma addArgument_Ok nm n opt bare p :
  sanitize nm = Ok bare ->
  addArgument nm n opt p
  = insertArgument (if (2 <? String.length nm)%nat
                    then mkArgument "" bare opt n
                    else mkArgument bare "" opt n) p.
Proof.
  intros H. unfold addArgument.
  destruct (2 <? String.length nm)%nat;
    now rewrite (bind_Ok _ _ p bare p (lift_Ok _ _ _ H)).
Qed.

Lemma addArgument_Throw nm n opt e p :
  sanitize nm = Throw e -> addArgument nm n opt p = (Throw e, p).
Proof.
  intros H. unfold addArgument.
  destruct (2 <? String.length nm)%nat;
    apply bind_Throw; unfold lift; now rewrite H.
Qed.

Lemma addArgument2_Ok short_nm nm n opt bare_short bare p :
  sanitize short_nm = Ok bare_short -> sanitize nm = Ok bare ->
  addArgument2 short_nm nm n opt p
  = insertArgument (mkArgument bare_short bare opt n) p.
Proof.
  intros Hs Hn. unfold addArgument2.
  rewrite (bind_Ok _ _ p bare_short p (lift_Ok _ _ _ Hs)).
  now rewrite (bind_Ok _ _ p bare p (lift_Ok _ _ _ Hn)).
Qed.

Lemma sanitize_short_names (nm : string) :
  String.length nm < 2 ->
  sanitize nm
  = Throw (invalid_argument "Argument specifier has the wrong format").
Proof.
  destruct nm as [|a [|b s]]; cbn; try reflexivity; lia.
Qed.

Lemma sanitize_cases (nm : string) :
  (exists bare, sanitize nm = Ok bare)
  \/ (exists what, sanitize nm = Throw (invalid_argument what)).
Proof.
  destruct nm as [|a [|b [|c s]]].
  - right. eexists. reflexivity.
  - right. eexists. reflexivity.
  - rewrite sanitize_two. destruct (Ascii.eqb a "-"); eauto.
  - rewrite sanitize_long.
    destruct (Ascii.eqb a "-" && Ascii.eqb b "-"); eauto.
Qed.

Lemma addArgument2_Throw short_nm nm n opt p :
  ~ (returns (sanitize short_nm) /\ returns (sanitize nm)) ->
  exists what, addArgument2 short_nm nm n opt p
               = (Throw (invalid_argument what), p).
Proof.
  intros H. unfold addArgument2.
  destruct (sanitize_cases short_nm) as [[b Hb] | [w Hw]].
  - destruct (sanitize_cases nm) as [[b' Hb'] | [w Hw]].
    + elim H. split; eexists; eauto.
    + exists w. rewrite (bind_Ok _ _ p b p (lift_Ok _ _ _ Hb)).
      apply bind_Throw. unfold lift. now rewrite Hw.
  - exists w. apply bind_Throw. unfold lift. now rewrite Hw.
Qed.

Lemma parse_eq argv p : parse argv p = (Ok tt, exec (parse argv) p).
Proof.
  unfold exec, parse. destruct argv; [reflexivity|].
  now destruct (empty_str (app_name_ p) && negb (ignore_first_ p)).
Qed.

Lemma parse_slots argv p :
  index_ (exec (parse argv) p) = index_ p /\
  variables_ (exec (parse argv) p) = variables_ p /\
  arguments_ (exec (parse argv) p) = arguments_ p.
Proof.
  unfold exec, parse. destruct argv; [easy|].
  now destruct (empty_str (app_name_ p) && negb (ignore_first_ p)).
Qed.

(** C5, as amended.  [sanitize] accepts a 2-character name exactly when
    its first character is '-' (the second character is not looked at),
    accepts a longer name exactly when it begins with '--', and rejects
    names of fewer than 2 characters.  A rejection is always
    [std::invalid_argument], and a rejected [addArgument] leaves the parser
    as it was.  An accepted name is the given one without its one dash
    (2 characters) or two dashes (longer), and that bare name is what
    [addArgument] stores in the descriptor and in the index.
    [addFinalArgument] does not call [sanitize]: it returns for every
    name, of any length and with or without dashes, and stores and indexes
    the name as it was given. *)
Theorem sanitize_name_syntax (nm : string) :
  (String.length nm = 2 ->
     (returns (sanitize nm) <-> char_at nm 0 = "-"%char)) /\
  (2 < String.length nm ->
     (returns (sanitize nm)
      <-> char_at nm 0 = "-"%char /\ char_at nm 1 = "-"%char)) /\
  (String.length nm < 2 -> ~ returns (sanitize nm)) /\
  (forall e, sanitize nm = Throw e ->
     (exists what, e = invalid_argument what) /\
     forall n opt p, addArgument nm n opt p = (Throw e, p)) /\
  (forall u, sanitize nm <> Undefined u) /\
  (forall bare, sanitize nm = Ok bare ->
     (String.length nm = 2 /\ nm = "-" +:+ bare
      \/ 2 < String.length nm /\ nm = "--" +:+ bare) /\
     forall n opt p,
       let arg := if (2 <? String.length nm)%nat
                  then mkArgument "" bare opt n
                  else mkArgument bare "" opt n in
       let p' := exec (addArgument nm n opt) p in
       run (addArgument nm n opt) p = Ok tt /\
       arguments_ p' = (arguments_ p ++ [arg])%list /\
       index_ p' !! bare = Some (length (arguments_ p))) /\
  (forall n opt p,
     let p' := exec (addFinalArgument nm n opt) p in
     run (addFinalArgument nm n opt) p = Ok tt /\
     final_name_ p' = nm /\
     arguments_ p' = (arguments_ p ++ [mkArgument "" nm opt n])%list /\
     (nm <> "" -> index_ p' !! nm = Some (length (arguments_ p)))).
Proof.
  repeat apply conj.
  - intros Hlen. destruct nm as [|a [|b [|c s]]]; try discriminate Hlen.
    rewrite sanitize_two. cbn. unfold returns.
    destruct (Ascii.eqb_spec a "-") as [-> | Hne]; split; eauto.
    + intros [x Hx]. discriminate Hx.
    + congruence.
  - intros Hlen. destruct nm as [|a [|b [|c s]]]; cbn in Hlen; try lia.
    rewrite sanitize_long. cbn. unfold returns.
    destruct (Ascii.eqb_spec a "-") as [-> | Hne];
      destruct (Ascii.eqb_spec b "-") as [-> | Hne']; cbn; split; eauto;
      try (intros [x Hx]; discriminate Hx); intros [? ?]; congruence.
  - intros Hlen [x Hx]. rewrite sanitize_short_names in Hx by assumption.
    discriminate Hx.
  - intros e He. split.
    + destruct (sanitize_cases nm) as [[b Hb] | [w Hw]]; [congruence|].
      exists w. congruence.
    + intros n opt p. now apply addArgument_Throw.
  - intros u Hu. destruct (sanitize_cases nm) as [[b Hb] | [w Hw]]; congruence.
  - intros bare Hb. split.
    + destruct nm as [|a [|b [|c s]]]; try discriminate Hb.
      * rewrite sanitize_two in Hb. left.
        destruct (Ascii.eqb_spec a "-") as [-> | Hne]; [|discriminate Hb].
        injection Hb as <-. now split.
      * rewrite sanitize_long in Hb. right.
        destruct (Ascii.eqb_spec a "-") as [-> | Hne]; [|discriminate Hb].
        destruct (Ascii.eqb_spec b "-") as [-> | Hne]; [|discriminate Hb].
        injection Hb as <-. split; [cbn; lia | reflexivity].
    + intros n opt p. cbn zeta. unfold run, exec.
      rewrite (addArgument_Ok _ _ _ _ _ Hb).
      repeat split.
      apply insertArgument_index_new. split.
      * now apply sanitize_nonempty in Hb.
      * destruct (2 <? String.length nm)%nat; cbn; auto.
  - intros n opt p. cbn zeta.
    refine (conj eq_refl (conj eq_refl (conj eq_refl _))).
    intros Hne.
    change (exec (addFinalArgument nm n opt) p)
      with (exec (insertArgument (mkArgument "" nm opt n))
              {| index_ := index_ p;
                 ignore_first_ := ignore_first_ p;
                 app_name_ := app_name_ p;
                 final_name_ := nm;
                 arguments_ := arguments_ p;
                 variables_ := variables_ p |}).
    rewrite insertArgument_index_new; [reflexivity|].
    split; [exact Hne | now right].
Qed.

Lemma sanitize_name_syntax_witness :
  returns (sanitize "-x") /\
  returns (sanitize "--name") /\
  ~ returns (sanitize "x") /\
  index_ (exec (addArgument "--name" zero true) (new_parser false)) !! "name"
  = Some 0 /\
  index_ (exec (addFinalArgument "f" (ascii_of_nat 1) false) (new_parser false))
    !! "f" = Some 0.
Proof.
  repeat apply conj.
  - apply (proj1 (sanitize_name_syntax "-x")); reflexivity.
  - apply (proj1 (proj2 (sanitize_name_syntax "--name"))); cbn.
    + lia.
    + split; reflexivity.
  - apply (proj1 (proj2 (proj2 (sanitize_name_syntax "x")))). cbn. lia.
  - apply (proj1 (proj2 (proj2 (proj2 (proj2 (proj2
             (sanitize_name_syntax "--name")))))) "name" eq_refl).
  - apply (proj2 (proj2 (proj2 (proj2 (proj2 (proj2
             (sanitize_name_syntax "f"))))))
             (ascii_of_nat 1) false (new_parser false)).
    discriminate.
Defined.

(** C5, as stated, fails: "-!" has 2 characters and '!' is not
    alphanumeric, yet [sanitize] accepts it; and a final argument is
    declared under a 1-character name without any check. *)
Lemma sanitize_accepts_non_alnum :
  ~ (returns (sanitize "-!")
     <-> char_at "-!" 0 = "-"%char /\ isalnum (char_at "-!" 1) = true) /\
  String.length "f" = 1 /\
  run (addFinalArgument "f" (ascii_of_nat 1) false) (new_parser false) = Ok tt.
Proof.
  repeat apply conj; try reflexivity.
  intros [H _]. destruct H as [_ H].
  - exists "!". reflexivity.
  - discriminate H.
Qed.

(** C3, as amended.  [insertArgument] has no uniqueness check.  Declaring
    a descriptor one of whose names is already in the index returns
    normally: the descriptor and a fresh slot are appended, so the slot
    count grows by one, and the shared name now resolves to the new slot;
    names the new descriptor does not carry resolve as before. *)
Theorem duplicate_name_accepted (p : ArgumentParser) (arg : Argument)
    (k : string) (N0 : nat) :
  indexed_as arg k ->
  index_ p !! k = Some N0 ->
  let p' := exec (insertArgument arg) p in
  run (insertArgument arg) p = Ok tt /\
  length (variables_ p') = S (length (variables_ p)) /\
  arguments_ p' = (arguments_ p ++ [arg])%list /\
  index_ p' !! k = Some (length (arguments_ p)) /\
  (forall k', ~ indexed_as arg k' -> index_ p' !! k' = index_ p !! k').
Proof.
  intros Hk _. cbn zeta. repeat apply conj.
  - reflexivity.
  - rewrite insertArgument_variables, length_app. cbn. lia.
  - reflexivity.
  - now apply insertArgument_index_new.
  - intros k'. apply insertArgument_index_old.
Qed.

Lemma duplicate_name_accepted_witness :
  index_ (exec (insertArgument (mkArgument "" "name" true zero)) one_long_name)
    !! "name" = Some 1.
Proof.
  apply (duplicate_name_accepted one_long_name
           (mkArgument "" "name" true zero) "name" 0).
  - split; [discriminate | right; reflexivity].
  - reflexivity.
Defined.

(** C3, as stated, fails: declaring [--name] a second time does not throw,
    and the parser has two slots afterwards where it had one. *)
Lemma duplicate_name_not_rejected :
  ~ (throws (run (addArgument "--name" zero true) one_long_name) /\
     length (variables_ (exec (addArgument "--name" zero true) one_long_name))
     = length (variables_ one_long_name)).
Proof.
  intros [[e He] _]. discriminate He.
Qed.

Example duplicate_name_slots :
  run (addArgument "--name" zero true) one_long_name = Ok tt /\
  length (variables_ one_long_name) = 1 /\
  length (variables_ (exec (addArgument "--name" zero true) one_long_name)) = 2.
Proof. repeat split. Qed.

(** C4, as amended.  [addFinalArgument] has no check either.  On a parser
    that already has a final argument, a second call returns normally,
    replaces the recorded final name by the new one and appends the new
    descriptor and its slot. *)
Theorem second_final_accepted (p : ArgumentParser) (nm : string) (n : ascii)
    (opt : bool) :
  final_name_ p <> "" ->
  let p' := exec (addFinalArgument nm n opt) p in
  run (addFinalArgument nm n opt) p = Ok tt /\
  final_name_ p' = nm /\
  arguments_ p' = (arguments_ p ++ [mkArgument "" nm opt n])%list /\
  length (variables_ p') = S (length (variables_ p)).
Proof.
  intros _. cbn zeta. repeat apply conj; try reflexivity.
  change (exec (addFinalArgument nm n opt) p)
    with (exec (insertArgument (mkArgument "" nm opt n))
            {| index_ := index_ p;
               ignore_first_ := ignore_first_ p;
               app_name_ := app_name_ p;
               final_name_ := nm;
               arguments_ := arguments_ p;
               variables_ := variables_ p |}).
  rewrite insertArgument_variables, length_app. cbn. lia.
Qed.

Lemma second_final_accepted_witness :
  final_name_ one_final = "source" /\
  final_name_ (exec (addFinalArgument "target" (ascii_of_nat 1) false) one_final)
  = "target".
Proof.
  split; [reflexivity|].
  apply (second_final_accepted one_final "target" (ascii_of_nat 1) false).
  discriminate.
Defined.

(** C4, as stated, fails: the second final argument is not refused. *)
Lemma second_final_not_rejected :
  final_name_ one_final <> "" /\
  ~ throws (run (addFinalArgument "target" (ascii_of_nat 1) false) one_final).
Proof.
  split; [discriminate|]. intros [e He]. discriminate He.
Qed.

(** ** Declare, parse, retrieve *)

(** C1.  What the code does: after [-x] is declared with fixed count 1,
    [parse] of [[-x; v]] stores nothing, and [retrieve<std::string>("x")]
    returns the empty string the slot was created with, whatever [v] is. *)
Theorem declare_parse_retrieve (p : ArgumentParser) (x : ascii) (opt : bool)
    (v : string) :
  length (arguments_ p) = length (variables_ p) ->
  let flag := String "-" (String x "") in
  run (addArgument flag (ascii_of_nat 1) opt;;
       parse [flag; v];;
       retrieve ty_string (String x "")) p
  = Ok (Holder_string "").
Proof.
  intros Hlen flag. unfold run.
  assert (Hs : sanitize flag = Ok (String x "")) by apply sanitize_two.
  set (arg := mkArgument (String x "") "" opt (ascii_of_nat 1)).
  set (p1 := exec (insertArgument arg) p).
  rewrite (bind_Ok _ _ p tt p1).
  2:{ rewrite (addArgument_Ok _ _ _ _ _ Hs). reflexivity. }
  rewrite (bind_Ok _ _ p1 tt (exec (parse [flag; v]) p1)) by apply parse_eq.
  destruct (parse_slots [flag; v] p1) as (Hi & Hv & _).
  unfold retrieve. rewrite Hi, Hv.
  unfold p1 at 1. rewrite (insertArgument_index_new arg p (String x "")).
  2:{ split; [discriminate | left; reflexivity]. }
  unfold p1. rewrite insertArgument_variables, Hlen.
  rewrite list_lookup_middle by reflexivity.
  reflexivity.
Qed.

Lemma declare_parse_retrieve_witness :
  run (addArgument "-x" (ascii_of_nat 1) true;;
       parse ["-x"; "v"];;
       retrieve ty_string "x") (new_parser false)
  = Ok (Holder_string "").
Proof.
  apply (declare_parse_retrieve (new_parser false) "x" true "v").
  reflexivity.
Defined.

Lemma retrieve_errors_witness :
  retrieve ty_vector "x" one_short_name = (Throw bad_cast, one_short_name) /\
  retrieve ty_string "y" one_short_name
  = (Throw (out_of_range "Key not found"), one_short_name).
Proof.
  split.
  - apply (proj1 (retrieve_errors one_short_name "x" 0 "")); reflexivity.
  - apply (proj2 (retrieve_errors one_short_name "y" 0 "")); reflexivity.
Defined.

(** A descriptor declared with a fixed count gets a slot holding the empty
    string, and its bare name resolves to that slot. *)
Lemma declared_fixed_slot (p : ArgumentParser) (nm bare : string) (n : ascii)
    (opt : bool) :
  length (arguments_ p) = length (variables_ p) ->
  sanitize nm = Ok bare ->
  Ascii.eqb n "+" || Ascii.eqb n "*" = false ->
  let p' := exec (addArgument nm n opt) p in
  index_ p' !! bare = Some (length (arguments_ p)) /\
  variables_ p' !! length (arguments_ p) = Some (Any_of (Holder_string "")) /\
  retrieve ty_vector bare p' = (Throw bad_cast, p').
Proof.
  intros Hlen Hs Hn. cbn zeta. unfold exec.
  rewrite (addArgument_Ok _ _ _ _ _ Hs).
  set (arg := if (2 <? String.length nm)%nat
              then mkArgument "" bare opt n else mkArgument bare "" opt n).
  fold (exec (insertArgument arg) p).
  assert (Hi : index_ (exec (insertArgument arg) p) !! bare
               = Some (length (arguments_ p))).
  { apply insertArgument_index_new. split.
    - now apply sanitize_nonempty in Hs.
    - unfold arg. destruct (2 <? String.length nm)%nat; cbn; auto. }
  assert (Hv : variables_ (exec (insertArgument arg) p)
                 !! length (arguments_ p)
               = Some (Any_of (Holder_string ""))).
  { rewrite insertArgument_variables, Hlen.
    rewrite list_lookup_middle by reflexivity.
    unfold slot_of, fixed, arg.
    destruct (2 <? String.length nm)%nat; cbn; now rewrite Hn. }
  repeat apply conj; [exact Hi | exact Hv |].
  unfold retrieve. now rewrite Hi, Hv.
Qed.

(** ** [Argument::toString] *)

Example toString_star :
  toString (mkArgument "" "in" false "*") = "--in [IN IN...]".
Proof. reflexivity. Qed.

Example toString_plus :
  toString (mkArgument "" "in" true "+") = "[--in IN [IN...]]".
Proof. reflexivity. Qed.

Example toString_five :
  toString (mkArgument "x" "" false (ascii_of_nat 5)) = "-x X X X ...".
Proof. reflexivity. Qed.

Lemma repeat_str_snoc (n : nat) (s : string) :
  repeat_str n s +:+ s = s +:+ repeat_str n s.
Proof.
  induction n as [|n IH]; cbn [repeat_str].
  - now rewrite app_nil_r_s.
  - now rewrite app_assoc_s, IH.
Qed.

Lemma put_placeholders_repeat (n : nat) (uname s : string) :
  put_placeholders n uname s = s +:+ repeat_str n (" " +:+ uname).
Proof.
  revert s. induction n as [|n IH]; intros s; cbn [put_placeholders repeat_str].
  - now rewrite app_nil_r_s.
  - rewrite IH. now rewrite app_assoc_s.
Qed.

(** C10, as amended.  With NAME the upper-cased long name (the short name
    when there is no long one): for fixed count N the rendering has
    " NAME" min(N, 3) times, followed by " ..." exactly when N > 3; for
    '*' it has " [NAME NAME...]", one pair of brackets around both
    occurrences; for '+' it has " NAME [NAME...]", the first occurrence
    outside the brackets.  An optional descriptor is wrapped in one more
    pair of brackets. *)
Theorem toString_rendering (a : Argument) :
  let NAME := placeholder a in
  (forall n, nargs a = fixed_nargs n ->
     toString a
     = bracketed (optional a)
         (dashed_name a +:+ repeat_str (N.to_nat (N.min n 3)) (" " +:+ NAME)
          +:+ (if (3 <? n)%N then " ..." else ""))) /\
  (nargs a = variable_nargs "*" ->
     toString a
     = bracketed (optional a)
         (dashed_name a +:+ " [" +:+ NAME +:+ " " +:+ NAME +:+ "...]")) /\
  (nargs a = variable_nargs "+" ->
     toString a
     = bracketed (optional a)
         (dashed_name a +:+ " " +:+ NAME +:+ " [" +:+ NAME +:+ "...]")).
Proof.
  cbn zeta. unfold toString, placeholder, dashed_name, bracketed.
  repeat apply conj.
  - intros n ->. rewrite put_placeholders_repeat.
    replace (N.min 3 n) with (N.min n 3) by lia.
    assert (E : (N.min n 3 <? n)%N = (3 <? n)%N).
    { destruct (N.ltb_spec 3 n); destruct (N.ltb_spec (N.min n 3) n);
        try reflexivity; lia. }
    rewrite E.
    destruct (optional a), (empty_str (name a)), (3 <? n)%N; cbn [negb];
      rewrite ?app_nil_l_s, ?app_nil_r_s, ?app_assoc_s; reflexivity.
  - intros ->. cbn [Ascii.eqb Bool.eqb].
    destruct (optional a), (empty_str (name a)); cbn [negb];
      rewrite ?app_nil_l_s, ?app_assoc_s; reflexivity.
  - intros ->. cbn [Ascii.eqb Bool.eqb].
    destruct (optional a), (empty_str (name a)); cbn [negb];
      rewrite ?app_nil_l_s, ?app_assoc_s; reflexivity.
Qed.

Lemma toString_rendering_witness :
  toString (mkArgument "x" "" false (ascii_of_nat 5)) = "-x X X X ..." /\
  toString (mkArgument "" "in" true "*") = "[--in [IN IN...]]" /\
  toString (mkArgument "" "in" false "+") = "--in IN [IN...]".
Proof.
  repeat apply conj.
  - apply (proj1 (toString_rendering (mkArgument "x" "" false (ascii_of_nat 5)))
             5%N eq_refl).
  - apply (proj1 (proj2 (toString_rendering (mkArgument "" "in" true "*")))
             eq_refl).
  - apply (proj2 (proj2 (toString_rendering (mkArgument "" "in" false "+")))
             eq_refl).
Defined.

(** C10, as stated, fails for '*': the rendering has no inner bracket. *)
Lemma toString_star_not_nested :
  nargs (mkArgument "" "in" false "*") = variable_nargs "*" /\
  toString (mkArgument "" "in" false "*") = "--in [IN IN...]" /\
  toString (mkArgument "" "in" false "*") <> "--in [IN [IN...]]".
Proof.
  repeat apply conj; [reflexivity | reflexivity | discriminate].
Qed.

(** ** [usage] *)

Lemma put_argument_text indent argstr st st' :
  text st = text st' ->
  text (put_argument indent argstr st) = text (put_argument indent argstr st').
Proof.
  unfold text, put_argument. intros [= Hh Hl]. rewrite Hh, Hl.
  now destruct (80 <? String.length argstr + linelength st')%nat.
Qed.

Lemma put_arguments_text indent strs st st' :
  text st = text st' ->
  text (put_arguments indent strs st) = text (put_arguments indent strs st').
Proof.
  revert st st'. induction strs as [|s strs IH]; intros st st' H; [exact H|].
  cbn. apply IH. now apply put_argument_text.
Qed.

Lemma required_arguments_filter final_name indent args st :
  required_arguments final_name indent args st
  = put_arguments indent
      (map toString (List.filter (listed_required final_name) args)) st.
Proof.
  revert st. induction args as [|arg args IH]; intros st; [reflexivity|].
  cbn [required_arguments List.filter]. unfold listed_required at 1.
  destruct (optional arg); cbn [negb andb]; [apply IH|].
  destruct (String.eqb (name arg) final_name); cbn [negb]; apply IH.
Qed.

Lemma optional_arguments_filter final_name indent args st :
  text (optional_arguments final_name indent args st)
  = text (put_arguments indent
            (map toString (List.filter (listed_optional final_name) args)) st).
Proof.
  revert st. induction args as [|arg args IH]; intros st; [reflexivity|].
  cbn [optional_arguments List.filter]. unfold listed_optional at 1.
  destruct (optional arg); cbn [negb andb]; [|apply IH].
  destruct (String.eqb (name arg) final_name); cbn [negb]; [apply IH|].
  rewrite IH. cbn [map]. unfold put_arguments at 2. cbn [fold_left].
  apply put_arguments_text. now apply put_argument_text.
Qed.

(** Both loops together write the rendered descriptors of [usage_order],
    one after the other, after the prefix. *)
Lemma usage_loops_text (p : ArgumentParser) :
  text (usage_loops p)
  = text (put_arguments (String.length (usage_prefix p))
            (map toString (usage_order p))
            {| help := usage_prefix p; linelength := 0; cout := [] |}).
Proof.
  unfold usage_loops, usage_order. cbn zeta.
  rewrite optional_arguments_filter, required_arguments_filter.
  unfold put_arguments. now rewrite map_app, fold_left_app.
Qed.

(** With no final argument declared, [final_name_] is empty, and the test
    [arg.name.compare(final_name_) == 0] holds of every descriptor that has
    a short name only: neither loop writes it. *)
Lemma short_name_only_not_listed (p : ArgumentParser) (arg : Argument) :
  final_name_ p = "" -> name arg = "" -> ~ In arg (usage_order p).
Proof.
  intros Hf Hn. unfold usage_order. rewrite in_app_iff, !filter_In.
  unfold listed_required, listed_optional. rewrite Hf, Hn. cbn.
  rewrite !andb_false_r. intros [[_ H] | [_ H]]; discriminate H.
Qed.

(** A descriptor whose long name differs from [final_name_] is written by
    exactly one of the loops. *)
Lemma long_name_listed (p : ArgumentParser) (arg : Argument) :
  In arg (arguments_ p) -> name arg <> final_name_ p ->
  In arg (usage_order p).
Proof.
  intros Hin Hne. unfold usage_order. rewrite in_app_iff, !filter_In.
  unfold listed_required, listed_optional.
  apply String.eqb_neq in Hne. rewrite Hne.
  destruct (optional arg); cbn; auto.
Qed.

(** When a final argument is declared and indexed, [usage] returns what the
    loops wrote (the required descriptors, then the optional ones),
    followed by the rendered final descriptor, with a break in between when
    the test of line 288 asks for one. *)
Lemma usage_final_last (p : ArgumentParser) (N : nat) (final : Argument) :
  final_name_ p <> "" ->
  index_ p !! final_name_ p = Some N ->
  arguments_ p !! N = Some final ->
  let body := help (usage_loops p) in
  let argstr := toString final in
  usage p
  = (Ok ((if (80 <? String.length argstr + String.length body mod 80)%nat
          then body +:+ newline +:+ spaces (String.length (usage_prefix p))
          else body) +:+ argstr), p).
Proof.
  intros Hf Hi Ha. cbn zeta. unfold usage, index_subscript.
  apply empty_str_false in Hf. rewrite Hf, Hi, Ha. cbn [negb].
  now destruct p.
Qed.

Lemma usage_no_final (p : ArgumentParser) :
  final_name_ p = "" -> usage p = (Ok (help (usage_loops p)), p).
Proof. intros Hf. unfold usage. now rewrite Hf. Qed.

(** *** Wrapping three descriptors *)

Lemma count_newlines_app (a b : string) :
  count_newlines (a +:+ b) = count_newlines a + count_newlines b.
Proof.
  induction a as [|x a IH]; [reflexivity|].
  rewrite app_cons_s. cbn [count_newlines]. rewrite IH. lia.
Qed.

Lemma count_newlines_spaces (n : nat) : count_newlines (spaces n) = 0.
Proof. induction n as [|n IH]; [reflexivity|]. exact IH. Qed.

Lemma count_newlines_line_break (indent : nat) :
  count_newlines (line_break indent) = 1.
Proof.
  unfold line_break. rewrite count_newlines_app, count_newlines_spaces.
  reflexivity.
Qed.

(** Three rendered descriptors of 85 characters in all, written from an
    empty line: one break, before the first descriptor with which the
    running length would pass 80. *)
Lemma wrap_three (indent : nat) (pre s1 s2 s3 : string) (out : list nat) :
  String.length s1 + String.length s2 + String.length s3 = 85 ->
  help (put_arguments indent [s1; s2; s3]
          {| help := pre; linelength := 0; cout := out |})
  = if (80 <? String.length s1)%nat
    then pre +:+ line_break indent +:+ s1 +:+ " " +:+ s2 +:+ " " +:+ s3 +:+ " "
    else if (80 <? String.length s1 + String.length s2)%nat
    then pre +:+ s1 +:+ " " +:+ line_break indent +:+ s2 +:+ " " +:+ s3 +:+ " "
    else pre +:+ s1 +:+ " " +:+ s2 +:+ " " +:+ line_break indent +:+ s3 +:+ " ".
Proof.
  intros Hsum. unfold put_arguments, line_break. cbn [fold_left].
  unfold put_argument. cbn [help linelength cout].
  rewrite Nat.add_0_r.
  destruct (Nat.ltb_spec 80 (String.length s1)) as [H1 | H1];
    cbn [help linelength cout].
  - rewrite Nat.add_0_r.
    destruct (Nat.ltb_spec 80 (String.length s2)) as [H2 | H2]; [lia|].
    cbn [help linelength cout]. rewrite Nat.add_0_l.
    destruct (Nat.ltb_spec 80 (String.length s3 + String.length s2));
      [lia|].
    cbn [help]. now rewrite !app_assoc_s.
  - rewrite Nat.add_0_l, (Nat.add_comm (String.length s2)).
    destruct (Nat.ltb_spec 80 (String.length s1 + String.length s2))
      as [H2 | H2]; cbn [help linelength cout].
    + rewrite Nat.add_0_r.
      destruct (Nat.ltb_spec 80 (String.length s3)); [lia|].
      cbn [help]. now rewrite !app_assoc_s.
    + destruct (Nat.ltb_spec 80
                  (String.length s3 + (String.length s1 + String.length s2)));
        [|lia].
      cbn [help]. now rewrite !app_assoc_s.
Qed.

Lemma wrap_three_one_break (indent : nat) (pre s1 s2 s3 : string)
    (out : list nat) :
  String.length s1 + String.length s2 + String.length s3 = 85 ->
  count_newlines pre = 0 -> count_newlines s1 = 0 ->
  count_newlines s2 = 0 -> count_newlines s3 = 0 ->
  count_newlines
    (help (put_arguments indent [s1; s2; s3]
             {| help := pre; linelength := 0; cout := out |})) = 1.
Proof.
  intros Hsum H0 H1 H2 H3. rewrite wrap_three by assumption.
  destruct (80 <? String.length s1)%nat;
    [|destruct (80 <? String.length s1 + String.length s2)%nat];
    rewrite !count_newlines_app, count_newlines_line_break, H0, H1, H2, H3;
    reflexivity.
Qed.

Lemma filter_partition_perm {A} (f : A -> bool) (l : list A) :
  Permutation l
    (List.filter f l ++ List.filter (fun x => negb (f x)) l)%list.
Proof.
  induction l as [|x l IH]; [constructor|].
  cbn [List.filter]. destruct (f x); cbn [negb].
  - cbn. now apply perm_skip.
  - now apply Permutation_cons_app.
Qed.

(** When no descriptor has the final name as its long name, the loops
    write all of them: the required ones, then the optional ones. *)
Lemma usage_order_perm (p : ArgumentParser) :
  Forall (fun arg => name arg <> final_name_ p) (arguments_ p) ->
  Permutation (arguments_ p) (usage_order p).
Proof.
  intros Hall. unfold usage_order.
  rewrite (filter_partition_perm (fun arg => negb (optional arg))
             (arguments_ p)) at 1.
  rewrite Forall_forall in Hall.
  assert (Hne : forall arg, In arg (arguments_ p) ->
                            String.eqb (name arg) (final_name_ p) = false).
  { intros arg Hin. apply String.eqb_neq. apply Hall.
    now apply list_elem_of_In. }
  rewrite (filter_ext_in (listed_required (final_name_ p))
             (fun arg => negb (optional arg))).
  2:{ intros arg Hin. unfold listed_required. rewrite Hne by assumption.
      now rewrite andb_true_r. }
  rewrite (filter_ext_in (listed_optional (final_name_ p))
             (fun arg => negb (negb (optional arg)))).
  2:{ intros arg Hin. unfold listed_optional. rewrite Hne by assumption.
      now rewrite andb_true_r, negb_involutive. }
  reflexivity.
Qed.

Lemma rendered_total_perm (l l' : list Argument) :
  Permutation l l' -> rendered_total l = rendered_total l'.
Proof.
  induction 1; unfold rendered_total in *; cbn [fold_right] in *; lia.
Qed.

(** Three descriptors with long names, no final argument, 85 rendered
    characters in all: [usage] writes all three with exactly one break,
    placed before the first descriptor with which the running length would
    pass 80 and followed by as many spaces as the prefix is long. *)
Lemma usage_wraps_three_long_names (p : ArgumentParser) :
  length (arguments_ p) = 3 ->
  final_name_ p = "" ->
  Forall (fun arg => name arg <> "") (arguments_ p) ->
  rendered_total (arguments_ p) = 85 ->
  exists e1 e2 e3,
    usage_order p = [e1; e2; e3] /\
    Permutation (arguments_ p) [e1; e2; e3] /\
    let pre := usage_prefix p in
    let brk := line_break (String.length pre) in
    let s1 := toString e1 in
    let s2 := toString e2 in
    let s3 := toString e3 in
    usage p
    = (Ok (if (80 <? String.length s1)%nat
           then pre +:+ brk +:+ s1 +:+ " " +:+ s2 +:+ " " +:+ s3 +:+ " "
           else if (80 <? String.length s1 + String.length s2)%nat
           then pre +:+ s1 +:+ " " +:+ brk +:+ s2 +:+ " " +:+ s3 +:+ " "
           else pre +:+ s1 +:+ " " +:+ s2 +:+ " " +:+ brk +:+ s3 +:+ " "), p).
Proof.
  intros Hlen Hf Hall Htot.
  assert (Hperm : Permutation (arguments_ p) (usage_order p)).
  { apply usage_order_perm. now rewrite Hf. }
  pose proof (Permutation_length Hperm) as Hl. rewrite Hlen in Hl.
  pose proof (rendered_total_perm _ _ Hperm) as Ht. rewrite Htot in Ht.
  pose proof (usage_loops_text p) as Htext.
  destruct (usage_order p) as [|e1 [|e2 [|e3 [|e4 rest]]]];
    try discriminate Hl.
  exists e1, e2, e3. repeat apply conj; [reflexivity | exact Hperm |].
  cbn zeta. rewrite usage_no_final by assumption.
  apply (f_equal fst) in Htext. unfold text in Htext. cbn [fst map] in Htext.
  rewrite Htext, wrap_three; [reflexivity|].
  unfold rendered_total in Ht. cbn [fold_right] in Ht. lia.
Qed.

Lemma usage_three_long_names_one_break (p : ArgumentParser) :
  length (arguments_ p) = 3 ->
  final_name_ p = "" ->
  Forall (fun arg => name arg <> "") (arguments_ p) ->
  rendered_total (arguments_ p) = 85 ->
  count_newlines (app_name_ p) = 0 ->
  Forall (fun arg => count_newlines (toString arg) = 0) (arguments_ p) ->
  exists out, usage p = (Ok out, p) /\ count_newlines out = 1.
Proof.
  intros Hlen Hf Hall Htot Happ Hnl.
  destruct (usage_wraps_three_long_names p Hlen Hf Hall Htot)
    as (e1 & e2 & e3 & Hord & Hperm & Hout).
  cbn zeta in Hout. eexists. split; [exact Hout|].
  assert (H0 : count_newlines (usage_prefix p) = 0).
  { unfold usage_prefix. rewrite !count_newlines_app, Happ. reflexivity. }
  assert (He : forall e, In e [e1; e2; e3] -> count_newlines (toString e) = 0).
  { intros e Hin. rewrite Forall_forall in Hnl. apply Hnl.
    apply list_elem_of_In. apply Permutation_sym in Hperm.
    exact (Permutation_in _ Hperm Hin). }
  pose proof (He e1 (or_introl eq_refl)) as H1.
  pose proof (He e2 (or_intror (or_introl eq_refl))) as H2.
  pose proof (He e3 (or_intror (or_intror (or_introl eq_refl)))) as H3.
  destruct (80 <? String.length (toString e1))%nat;
    [|destruct (80 <? String.length (toString e1)
                      + String.length (toString e2))%nat];
    rewrite !count_newlines_app, count_newlines_line_break, H0, H1, H2, H3;
    reflexivity.
Qed.

(** *** Descriptors with a short name only *)

(** C8.  What the code does on three descriptors, none of them final,
    whose renderings have 40, 39 and 6 characters: the third has a short
    name only, [final_name_] is empty, the first loop passes it over, and
    the string returned has the other two on one line and no line break
    at all. *)
Theorem usage_three_no_break (ignore_first : bool) :
  let p := two_long_one_short ignore_first in
  map toString (arguments_ p)
  = ["--aaaaaaaaaaaaaaaaaaaaaaaaaaaaaaaaaaaaaa"; "--bbbbbbbbbbbbbbbbbbbbbbbbbbbbbbbbbbbbb"; "-x X X"] /\
  rendered_total (arguments_ p) = 85 /\
  final_name_ p = "" /\
  run usage p = Ok "Usage:  --aaaaaaaaaaaaaaaaaaaaaaaaaaaaaaaaaaaaaa --bbbbbbbbbbbbbbbbbbbbbbbbbbbbbbbbbbbbb " /\
  count_newlines "Usage:  --aaaaaaaaaaaaaaaaaaaaaaaaaaaaaaaaaaaaaa --bbbbbbbbbbbbbbbbbbbbbbbbbbbbbbbbbbbbb " = 0.
Proof.
  destruct ignore_first; repeat apply conj; reflexivity.
Qed.

(** C9.  What the code does on an optional and a required descriptor that
    have short names only, with no final argument declared: [usage]
    returns the prefix and neither descriptor.  Once a final argument is
    declared, the same two descriptors are written, in the order required,
    optional, final. *)
Theorem usage_omits_short_names (ignore_first : bool) :
  let p := short_names_only ignore_first in
  map toString (arguments_ p) = ["[-v]"; "-n N"] /\
  final_name_ p = "" /\
  run usage p = Ok "Usage:  " /\
  run (addFinalArgument "out" (ascii_of_nat 1) false;; usage) p
  = Ok "Usage:  -n N [-v] --out OUT".
Proof.
  destruct ignore_first; repeat apply conj; reflexivity.
Qed.

(** ** Reachable parsers *)

Lemma consistent_new (ignore_first : bool) : consistent (new_parser ignore_first).
Proof.
  split; [reflexivity|]. intros k N H. cbn in H.
  rewrite lookup_empty in H. discriminate H.
Qed.

Lemma lookup_insert_cases (m : gmap string nat) (k' k : string) (n N : nat) :
  <[k' := n]> m !! k = Some N -> N = n \/ m !! k = Some N.
Proof.
  destruct (decide (k' = k)) as [-> | Hne].
  - rewrite lookup_insert_eq. intros [= <-]. now left.
  - rewrite lookup_insert_ne by assumption. now right.
Qed.

Lemma consistent_insertArgument arg p :
  consistent p -> consistent (exec (insertArgument arg) p).
Proof.
  intros [Hs Hi]. split.
  - rewrite insertArgument_variables, insertArgument_arguments, map_app, Hs.
    reflexivity.
  - intros k N. rewrite insertArgument_arguments, length_app. cbn [length].
    rewrite insertArgument_index. cbn zeta.
    destruct (empty_str (name arg)), (empty_str (short_name arg));
      intros H;
      repeat (apply lookup_insert_cases in H; destruct H as [-> | H];
              [lia|]);
      apply Hi in H; lia.
Qed.

Lemma consistent_addArgument nm n opt p :
  consistent p -> consistent (exec (addArgument nm n opt) p).
Proof.
  intros Hc. unfold exec.
  destruct (sanitize_cases nm) as [[b Hb] | [w Hw]].
  - rewrite (addArgument_Ok _ _ _ _ _ Hb). now apply consistent_insertArgument.
  - now rewrite (addArgument_Throw _ _ _ _ _ Hw).
Qed.

Lemma consistent_addArgument2 short_nm nm n opt p :
  consistent p -> consistent (exec (addArgument2 short_nm nm n opt) p).
Proof.
  intros Hc. unfold exec.
  destruct (sanitize_cases short_nm) as [[b Hb] | [w Hw]].
  - destruct (sanitize_cases nm) as [[b' Hb'] | [w Hw]].
    + rewrite (addArgument2_Ok _ _ _ _ _ _ _ Hb Hb').
      now apply consistent_insertArgument.
    + destruct (addArgument2_Throw short_nm nm n opt p) as [w' ->]; [|exact Hc].
      intros [_ [x Hx]]. congruence.
  - destruct (addArgument2_Throw short_nm nm n opt p) as [w' ->]; [|exact Hc].
    intros [[x Hx] _]. congruence.
Qed.

Lemma consistent_addFinalArgument nm n opt p :
  consistent p -> consistent (exec (addFinalArgument nm n opt) p).
Proof.
  intros [Hs Hi]. unfold addFinalArgument.
  apply (consistent_insertArgument (mkArgument "" nm opt n)
           {| index_ := index_ p;
              ignore_first_ := ignore_first_ p;
              app_name_ := app_name_ p;
              final_name_ := nm;
              arguments_ := arguments_ p;
              variables_ := variables_ p |}).
  now split.
Qed.

Lemma consistent_parse argv p :
  consistent p -> consistent (exec (parse argv) p).
Proof.
  intros [Hs Hi]. destruct (parse_slots argv p) as (Ei & Ev & Ea).
  split; rewrite ?Ei, ?Ev, ?Ea; assumption.
Qed.

Lemma consistent_clear p : consistent (exec clear p).
Proof.
  split; [reflexivity|]. intros k N H. cbn in H.
  rewrite lookup_empty in H. discriminate H.
Qed.

(** In a reachable parser [retrieve] finds a slot with a value in it for
    every indexed name: it returns the initial value or throws, and the
    null [content] of a default-constructed [Any] is never met. *)
Lemma retrieve_consistent (p : ArgumentParser) (T : type_info_t)
    (nm : string) (N : nat) :
  consistent p ->
  index_ p !! nm = Some N ->
  exists arg, arguments_ p !! N = Some arg /\
              retrieve T nm p = (castTo T (slot_of arg), p) /\
              content (slot_of arg) <> None.
Proof.
  intros [Hs Hi] Hn. pose proof (Hi _ _ Hn) as Hlt.
  destruct (lookup_lt_is_Some_2 _ _ Hlt) as [arg Ha].
  exists arg. repeat apply conj; [exact Ha | |].
  - unfold retrieve. rewrite Hn, Hs, list_lookup_fmap, Ha. reflexivity.
  - unfold slot_of. now destruct (fixed arg).
Qed.

Lemma consistent_lengths (p : ArgumentParser) :
  consistent p -> length (arguments_ p) = length (variables_ p).
Proof. intros [Hs _]. now rewrite Hs, length_map. Qed.

(** * Further properties of the header *)

(** ** [upper] *)

Lemma toupper_idempotent (c : ascii) : toupper (toupper c) = toupper c.
Proof.
  destruct c as [[] [] [] [] [] [] [] []]; reflexivity.
Qed.

(** X1.  [upper] keeps the length of its argument, changes nothing when
    applied a second time, and works through a concatenation piece by
    piece. *)
Theorem upper_length_idempotent (s t : string) :
  String.length (upper s) = String.length s /\
  upper (upper s) = upper s /\
  upper (s +:+ t) = upper s +:+ upper t.
Proof.
  repeat apply conj.
  - induction s as [|c s IH]; [reflexivity|]. cbn. now rewrite IH.
  - induction s as [|c s IH]; [reflexivity|]. cbn.
    now rewrite toupper_idempotent, IH.
  - induction s as [|c s IH]; [reflexivity|].
    rewrite app_cons_s. cbn [upper]. now rewrite app_cons_s, IH.
Qed.

(** ** [Any] *)

Lemma type_info_eqb_eq (a b : type_info_t) :
  type_info_eqb a b = true <-> a = b.
Proof. destruct a, b; cbn; split; congruence. Qed.

(** X2.  Extraction from an [Any] returns a value exactly when the [Any]
    holds one of the requested type, and then it is the held value; it
    throws [std::bad_cast] exactly when a value of another type is held.
    A copy, and the target of either assignment, give the same results as
    the source. *)
Theorem castTo_characterised (T : type_info_t) (a old : Any)
    (h : PlaceHolder) :
  (castTo T a = Ok h <-> content a = Some h /\ type_info h = T) /\
  (castTo T a = Throw bad_cast
   <-> exists h', content a = Some h' /\ type_info h' <> T) /\
  castTo T (Any_copy a) = castTo T a /\
  castTo T (Any_assign old a) = castTo T a /\
  castTo (type_info h) (Any_assign_value old h) = Ok h.
Proof.
  refine (conj _ (conj _ (conj _ (conj _ _)))).
  - split.
    + intros H. split; [now apply castTo_held in H | now apply castTo_type in H].
    + intros [Hc Ht]. unfold castTo, toPtr. rewrite Hc.
      apply type_info_eqb_eq in Ht. now rewrite Ht.
  - unfold castTo, toPtr. destruct (content a) as [h'|]; split.
    + destruct (type_info_eqb (type_info h') T) eqn:E; [discriminate|].
      intros _. exists h'. split; [reflexivity|].
      intros Ht. apply type_info_eqb_eq in Ht. congruence.
    + intros (h'' & [= <-] & Hne).
      destruct (type_info_eqb (type_info h') T) eqn:E; [|reflexivity].
      apply type_info_eqb_eq in E. contradiction.
    + discriminate.
    + intros (h' & Hc & _). discriminate Hc.
  - unfold Any_copy, castTo, toPtr. cbn. now destruct (content a).
  - unfold Any_assign, Any_swap, Any_copy, castTo, toPtr. cbn.
    now destruct (content a).
  - unfold Any_assign_value, Any_swap, castTo, toPtr. cbn.
    now destruct h.
Qed.

(** ** Rendering *)

(** X3.  A fixed count above 3 does not show in the rendering: two
    descriptors that differ in their counts only, both of 4 or more, are
    rendered alike. *)
Theorem toString_saturates (sn ln : string) (opt : bool) (n m : N) :
  (4 <= n)%N -> (4 <= m)%N ->
  toString {| short_name := sn; name := ln; optional := opt;
              nargs := fixed_nargs n |}
  = toString {| short_name := sn; name := ln; optional := opt;
                nargs := fixed_nargs m |}.
Proof.
  intros Hn Hm. unfold toString. cbn [nargs name short_name optional].
  replace (N.min 3 n) with 3%N by lia.
  replace (N.min 3 m) with 3%N by lia.
  destruct (N.ltb_spec 3 n) as [_ | Hle]; [|lia].
  destruct (N.ltb_spec 3 m) as [_ | Hle]; [|lia].
  reflexivity.
Qed.

Lemma toString_saturates_witness :
  toString (mkArgument "" "size" false (ascii_of_nat 4))
  = toString (mkArgument "" "size" false (ascii_of_nat 100)).
Proof.
  apply (toString_saturates "" "size" false 4 100); lia.
Defined.

Lemma sanitize_Ok_shape (nm bare : string) :
  sanitize nm = Ok bare ->
  bare <> "" /\
  ((2 <? String.length nm)%nat = false /\ nm = "-" +:+ bare
   \/ (2 <? String.length nm)%nat = true /\ nm = "--" +:+ bare).
Proof.
  intros H. split; [now apply sanitize_nonempty in H|].
  destruct nm as [|a [|b [|c s]]]; try discriminate H.
  - rewrite sanitize_two in H. left.
    destruct (Ascii.eqb_spec a "-") as [-> | Hne]; [|discriminate H].
    injection H as <-. now split.
  - rewrite sanitize_long in H. right.
    destruct (Ascii.eqb_spec a "-") as [-> | Hne]; [|discriminate H].
    destruct (Ascii.eqb_spec b "-") as [-> | Hne]; [|discriminate H].
    injection H as <-. now split.
Qed.

(** The descriptor the one-name [addArgument] builds from an accepted
    name with count 0 renders as the name itself. *)
Lemma toString_declared (nm bare : string) (opt : bool) :
  sanitize nm = Ok bare ->
  toString (declared nm bare zero opt) = bracketed opt nm.
Proof.
  intros H. apply sanitize_Ok_shape in H as (Hne & [[Hl ->] | [Hl ->]]);
    unfold declared; rewrite Hl; apply empty_str_false in Hne;
    unfold toString, bracketed; cbn [mkArgument name short_name optional nargs];
    cbn [Ascii.eqb Bool.eqb orb zero size_t_of_char]; cbn -[String.append];
    rewrite ?Hne; cbn [negb];
    destruct opt; rewrite ?app_nil_l_s, ?app_assoc_s; reflexivity.
Qed.

(** X4.  A flag declared with count 0 is rendered as it was typed: when
    [sanitize] accepts [nm], the call [addArgument(nm, 0, optional)]
    returns, appends one descriptor and leaves the earlier ones alone, and
    the new descriptor renders as [nm] itself, inside brackets when it is
    optional. *)
Theorem declared_renders_as_typed (p : ArgumentParser) (nm : string)
    (opt : bool) :
  returns (sanitize nm) ->
  let p' := exec (addArgument nm zero opt) p in
  run (addArgument nm zero opt) p = Ok tt /\
  map toString (arguments_ p')
  = (map toString (arguments_ p) ++ [bracketed opt nm])%list.
Proof.
  intros [bare Hs]. cbn zeta. unfold run, exec.
  rewrite (addArgument_Ok _ _ _ _ _ Hs).
  fold (declared nm bare zero opt).
  split; [reflexivity|].
  fold (exec (insertArgument (declared nm bare zero opt)) p).
  rewrite insertArgument_arguments, map_app. cbn [map].
  now rewrite (toString_declared nm bare opt Hs).
Qed.

Lemma declared_renders_as_typed_witness :
  map toString
    (arguments_ (exec (addArgument "--verbose" zero true) one_short_name))
  = ["[-x X]"; "[--verbose]"] /\
  map toString
    (arguments_ (exec (addArgument "-v" zero false) one_short_name))
  = ["[-x X]"; "-v"].
Proof.
  split.
  - apply (declared_renders_as_typed one_short_name "--verbose" true).
    exists "verbose". reflexivity.
  - apply (declared_renders_as_typed one_short_name "-v" false).
    exists "v". reflexivity.
Defined.

(** ** Declaration and lookup *)

(** X5.  [sanitize] undoes the dash prefix: one dash before a single
    character, or two dashes before any non-empty name, give a name that is
    accepted and stripped back to what it was.  One dash before a longer
    name that does not itself begin with a dash is refused. *)
Theorem sanitize_strips_prefix (c : ascii) (bare : string) :
  sanitize ("-" +:+ String c "") = Ok (String c "") /\
  (bare <> "" -> sanitize ("--" +:+ bare) = Ok bare) /\
  (2 <= String.length bare -> char_at bare 0 <> "-"%char ->
   throws (sanitize ("-" +:+ bare))).
Proof.
  refine (conj _ (conj _ _)).
  - apply sanitize_two.
  - intros Hne. destruct bare as [|b s]; [congruence|].
    apply (sanitize_long "-" "-" b s).
  - intros Hlen Hc. destruct bare as [|a [|b s]]; cbn in Hlen; try lia.
    change ("-" +:+ String a (String b s))
      with (String "-" (String a (String b s))).
    rewrite sanitize_long. cbn in Hc.
    destruct (Ascii.eqb_spec a "-") as [-> | Hne]; [congruence|].
    cbn. eexists. reflexivity.
Qed.

Lemma sanitize_strips_prefix_witness :
  sanitize "--name" = Ok "name" /\ throws (sanitize "-name").
Proof.
  split.
  - apply (proj1 (proj2 (sanitize_strips_prefix "x" "name"))). discriminate.
  - apply (proj2 (proj2 (sanitize_strips_prefix "x" "name"))); cbn.
    + lia.
    + discriminate.
Defined.

(** X6.  The two-name [addArgument] returns exactly when both names are
    accepted by [sanitize].  It then appends one descriptor carrying both
    bare names and makes both resolve to the new slot.  Otherwise it throws
    [std::invalid_argument] and the parser is as before, also when the
    first name was acceptable. *)
Theorem addArgument2_both_names (p : ArgumentParser) (short_nm nm : string)
    (n : ascii) (opt : bool) :
  (returns (run (addArgument2 short_nm nm n opt) p)
   <-> returns (sanitize short_nm) /\ returns (sanitize nm)) /\
  (forall bare_short bare,
     sanitize short_nm = Ok bare_short -> sanitize nm = Ok bare ->
     let p' := exec (addArgument2 short_nm nm n opt) p in
     arguments_ p' = (arguments_ p ++ [mkArgument bare_short bare opt n])%list /\
     index_ p' !! bare_short = Some (length (arguments_ p)) /\
     index_ p' !! bare = Some (length (arguments_ p))) /\
  (~ returns (run (addArgument2 short_nm nm n opt) p) ->
   exists what,
     addArgument2 short_nm nm n opt p = (Throw (invalid_argument what), p)).
Proof.
  assert (Hiff : returns (run (addArgument2 short_nm nm n opt) p)
                 <-> returns (sanitize short_nm) /\ returns (sanitize nm)).
  { split.
    - intros [x Hx].
      destruct (sanitize_cases short_nm) as [[b Hb] | [w Hw]];
        destruct (sanitize_cases nm) as [[b' Hb'] | [w' Hw']];
        try (split; eexists; eassumption);
        destruct (addArgument2_Throw short_nm nm n opt p) as [w'' Hthrow];
        try (unfold run in Hx; rewrite Hthrow in Hx; discriminate Hx);
        intros [[y Hy] [z Hz]]; congruence.
    - intros [[b Hb] [b' Hb']]. exists tt. unfold run.
      now rewrite (addArgument2_Ok _ _ _ _ _ _ _ Hb Hb'). }
  refine (conj Hiff (conj _ _)).
  - intros bs b Hs Hn. cbn zeta. unfold exec.
    rewrite (addArgument2_Ok _ _ _ _ _ _ _ Hs Hn).
    fold (exec (insertArgument (mkArgument bs b opt n)) p).
    repeat apply conj.
    + reflexivity.
    + apply insertArgument_index_new. split.
      * now apply sanitize_nonempty in Hs.
      * now left.
    + apply insertArgument_index_new. split.
      * now apply sanitize_nonempty in Hn.
      * now right.
  - intros Hnot. apply addArgument2_Throw. intros H. apply Hnot.
    now apply Hiff.
Qed.

Lemma addArgument2_both_names_witness :
  index_ (exec (addArgument2 "-n" "--name" zero true) (new_parser false)) !! "n"
  = Some 0 /\
  index_ (exec (addArgument2 "-n" "--name" zero true) (new_parser false))
    !! "name" = Some 0 /\
  exists what,
    addArgument2 "-n" "name" zero true (new_parser false)
    = (Throw (invalid_argument what), new_parser false).
Proof.
  destruct (addArgument2_both_names (new_parser false) "-n" "--name" zero true)
    as (_ & H & _).
  destruct (H "n" "name" eq_refl eq_refl) as (_ & Hn & Hname).
  destruct (addArgument2_both_names (new_parser false) "-n" "name" zero true)
    as (_ & _ & Hthrow).
  repeat apply conj; [exact Hn | exact Hname |].
  apply Hthrow. intros [x Hx]. discriminate Hx.
Defined.

(** X7.  What a declaration makes of the slot.  After [addArgument] has
    accepted a name, on a parser with as many slots as descriptors, the
    bare name retrieves an empty sequence when [nargs] is '+' or '*' and an
    empty string for every other [nargs]; asking for the other shape, or
    for any third type, throws [std::bad_cast]. *)
Theorem declare_then_retrieve (p : ArgumentParser) (nm bare : string)
    (n : ascii) (opt : bool) :
  length (arguments_ p) = length (variables_ p) ->
  sanitize nm = Ok bare ->
  let p' := exec (addArgument nm n opt) p in
  let variable := Ascii.eqb n "+" || Ascii.eqb n "*" in
  run (retrieve ty_string bare) p'
  = (if variable then Throw bad_cast else Ok (Holder_string "")) /\
  run (retrieve ty_vector bare) p'
  = (if variable then Ok (Holder_vector []) else Throw bad_cast) /\
  run (retrieve ty_other bare) p' = Throw bad_cast.
Proof.
  intros Hlen Hs. cbn zeta. unfold exec.
  rewrite (addArgument_Ok _ _ _ _ _ Hs).
  fold (declared nm bare n opt).
  fold (exec (insertArgument (declared nm bare n opt)) p).
  assert (Hi : index_ (exec (insertArgument (declared nm bare n opt)) p)
                 !! bare = Some (length (arguments_ p))).
  { apply insertArgument_index_new. split.
    - now apply sanitize_nonempty in Hs.
    - unfold declared. destruct (2 <? String.length nm)%nat; cbn; auto. }
  assert (Hv : variables_ (exec (insertArgument (declared nm bare n opt)) p)
                 !! length (arguments_ p)
               = Some (slot_of (declared nm bare n opt))).
  { rewrite insertArgument_variables, Hlen.
    now rewrite list_lookup_middle. }
  assert (Hslot : slot_of (declared nm bare n opt)
                  = if Ascii.eqb n "+" || Ascii.eqb n "*"
                    then Any_of (Holder_vector [])
                    else Any_of (Holder_string "")).
  { unfold slot_of, fixed, declared.
    destruct (2 <? String.length nm)%nat; cbn;
      now destruct (Ascii.eqb n "+" || Ascii.eqb n "*"). }
  unfold run, retrieve. rewrite Hi, Hv, Hslot.
  now destruct (Ascii.eqb n "+" || Ascii.eqb n "*").
Qed.

Lemma declare_then_retrieve_witness :
  run (retrieve ty_vector "inputs")
      (exec (addArgument "--inputs" "+" true) (new_parser false))
  = Ok (Holder_vector []).
Proof.
  apply (declare_then_retrieve (new_parser false) "--inputs" "inputs" "+" true);
    reflexivity.
Defined.

(** X8.  A declaration only adds names.  After [addArgument] has accepted
    a name, [exists] answers true for the bare name and [empty] answers
    false, and every name that existed before still exists. *)
Theorem addArgument_exists (p : ArgumentParser) (nm bare : string)
    (n : ascii) (opt : bool) :
  sanitize nm = Ok bare ->
  let p' := exec (addArgument nm n opt) p in
  run (exists_ bare) p' = Ok true /\
  run empty p' = Ok false /\
  (forall k, run (exists_ k) p = Ok true -> run (exists_ k) p' = Ok true).
Proof.
  intros Hs. cbn zeta. unfold exec.
  rewrite (addArgument_Ok _ _ _ _ _ Hs).
  fold (declared nm bare n opt).
  fold (exec (insertArgument (declared nm bare n opt)) p).
  assert (Hi : index_ (exec (insertArgument (declared nm bare n opt)) p)
                 !! bare = Some (length (arguments_ p))).
  { apply insertArgument_index_new. split.
    - now apply sanitize_nonempty in Hs.
    - unfold declared. destruct (2 <? String.length nm)%nat; cbn; auto. }
  unfold run, exists_, empty. cbn [fst]. repeat apply conj.
  - f_equal. apply bool_decide_eq_true. now rewrite Hi.
  - f_equal. apply bool_decide_eq_false. intros He.
    rewrite He, lookup_empty in Hi. discriminate Hi.
  - intros k [= Hk]. f_equal. apply bool_decide_eq_true in Hk.
    apply bool_decide_eq_true.
    destruct (decide (k = bare)) as [-> | Hne]; [now rewrite Hi|].
    destruct Hk as [N HN].
    rewrite insertArgument_index. cbn zeta.
    destruct (empty_str (name (declared nm bare n opt)));
      destruct (empty_str (short_name (declared nm bare n opt)));
      rewrite ?lookup_insert; repeat case_decide; eauto.
Qed.

Lemma addArgument_exists_witness :
  run (exists_ "name") (exec (addArgument "--name" zero true) one_short_name)
  = Ok true /\
  run (exists_ "x") (exec (addArgument "--name" zero true) one_short_name)
  = Ok true.
Proof.
  destruct (addArgument_exists one_short_name "--name" "name" zero true eq_refl)
    as (Hnew & _ & Hold).
  split; [exact Hnew | apply Hold; reflexivity].
Defined.

(** ** Parsers a client can reach *)

Lemma discard_exec {A} (m : M A) (p : ArgumentParser) :
  exec (discard m) p = exec m p.
Proof.
  unfold exec, discard, mbind, M_bind. now destruct (m p) as [[a|e|u] p'].
Qed.

Lemma discard_undefined {A} (m : M A) (p : ArgumentParser) (u : undefined) :
  run (discard m) p = Undefined u <-> run m p = Undefined u.
Proof.
  unfold run, discard, mbind, M_bind.
  destruct (m p) as [[a|e|u'] p']; cbn; split; congruence.
Qed.

Lemma retrieve_exec T nm p : exec (retrieve T nm) p = p.
Proof.
  unfold exec, retrieve. destruct (index_ p !! nm); [|reflexivity].
  now destruct (variables_ p !! n).
Qed.

Lemma count_exec nm p : exec (count nm) p = p.
Proof.
  unfold exec, count. destruct (index_ p !! nm) as [N|]; [|reflexivity].
  destruct (arguments_ p !! N) as [arg|]; [|reflexivity].
  destruct (variables_ p !! N) as [v|]; [|reflexivity].
  destruct (fixed arg).
  - now destruct (castTo ty_string (Any_copy v)) as [[s|l]|e|u].
  - now destruct (castTo ty_vector (Any_copy v)) as [[s|l]|e|u].
Qed.

Lemma usage_exec_consistent p :
  consistent p ->
  (forall u, run usage p <> Undefined u) ->
  consistent (exec usage p).
Proof.
  intros [Hs Hi] Hdef. unfold run, exec, usage, index_subscript in *.
  destruct (empty_str (final_name_ p)); cbn [negb] in *; [now split|].
  destruct (index_ p !! final_name_ p) as [N|] eqn:E.
  - destruct (arguments_ p !! N); cbn; split; cbn; try assumption;
      now rewrite E in *.
  - destruct (arguments_ p !! 0) as [arg|] eqn:E0.
    + cbn. split; [exact Hs|]. cbn. intros k N Hk.
      apply lookup_insert_cases in Hk as [-> | Hk]; [|now apply Hi in Hk].
      now apply lookup_lt_Some in E0.
    + exfalso. now apply (Hdef index_past_end).
Qed.

(** X9.  Every parser a client can reach from a default-initialised one,
    by calls whose behaviour is defined, is consistent: it has one slot for
    each descriptor, every slot still holds the empty value it was created
    with, and every indexed name points at a descriptor. *)
Theorem reachable_consistent (p : ArgumentParser) :
  reachable p -> consistent p.
Proof.
  induction 1 as [b | c p Hr IH Hdef]; [apply consistent_new|].
  destruct c; cbn [perform] in *.
  - destruct IH as [Hs Hi]. now split.
  - now apply consistent_addArgument.
  - now apply consistent_addArgument2.
  - now apply consistent_addFinalArgument.
  - destruct IH as [Hs Hi]. now split.
  - now apply consistent_parse.
  - now rewrite discard_exec, retrieve_exec.
  - rewrite discard_exec. apply usage_exec_consistent; [exact IH|].
    intros u Hu. apply (Hdef u). now apply discard_undefined.
  - now rewrite discard_exec.
  - apply consistent_clear.
  - now rewrite discard_exec.
  - now rewrite discard_exec, count_exec.
Qed.

Lemma reachable_consistent_witness : consistent one_long_name.
Proof.
  apply reachable_consistent.
  apply (reachable_call (call_addArgument "--name" zero true)
           (new_parser false)).
  - apply reachable_new.
  - discriminate.
Defined.

(** X10.  In a consistent parser [count] returns 0 for every name, known
    or not, and leaves the parser alone: no call ever writes a slot, and
    the empty string and the empty sequence both count as 0. *)
Theorem count_is_zero (p : ArgumentParser) (nm : string) :
  consistent p -> count nm p = (Ok 0, p).
Proof.
  intros [Hs Hi]. unfold count.
  destruct (index_ p !! nm) as [N|] eqn:E; [|reflexivity].
  apply Hi in E. destruct (lookup_lt_is_Some_2 _ _ E) as [arg Ha].
  rewrite Ha, Hs, list_lookup_fmap, Ha. cbn [fmap option_fmap option_map].
  unfold slot_of. now destruct (fixed arg).
Qed.

Lemma count_is_zero_witness :
  count "name" one_long_name = (Ok 0, one_long_name) /\
  count "other" one_long_name = (Ok 0, one_long_name).
Proof.
  split; apply count_is_zero; unfold one_long_name;
    apply consistent_addArgument, consistent_new.
Defined.

(** X11.  [exists], [retrieve] and [empty] agree on what is indexed:
    [retrieve] throws [std::out_of_range] exactly for the names for which
    [exists] answers false, whatever type is asked for, and when [empty]
    answers true [exists] answers false for every name. *)
Theorem exists_retrieve_agree (p : ArgumentParser) (nm : string)
    (T : type_info_t) :
  (run (exists_ nm) p = Ok false
   <-> retrieve T nm p = (Throw (out_of_range "Key not found"), p)) /\
  (run empty p = Ok true -> run (exists_ nm) p = Ok false).
Proof.
  unfold run, exists_, empty, retrieve. cbn [fst]. split.
  - destruct (index_ p !! nm) as [N|] eqn:E.
    + split.
      * intros [= H].
      * destruct (variables_ p !! N) as [v|]; [|discriminate].
        unfold castTo, toPtr. destruct (content v) as [h|]; [|discriminate].
        destruct (type_info_eqb (type_info h) T); discriminate.
    + split; reflexivity.
  - intros [= H]. apply bool_decide_eq_true in H. f_equal.
    apply bool_decide_eq_false. rewrite H, lookup_empty.
    intros [x Hx]. discriminate Hx.
Qed.

(** X12.  [clear] forgets every descriptor, slot and name: afterwards
    [empty] answers true, and for every name [exists] answers false,
    [count] returns 0 and [retrieve] throws [std::out_of_range].  The
    program name, the final name and the ignore-first flag survive. *)
Theorem clear_forgets (p : ArgumentParser) (nm : string) (T : type_info_t) :
  let p' := exec clear p in
  run clear p = Ok tt /\
  arguments_ p' = [] /\ variables_ p' = [] /\
  run empty p' = Ok true /\
  run (exists_ nm) p' = Ok false /\
  run (count nm) p' = Ok 0 /\
  run (retrieve T nm) p' = Throw (out_of_range "Key not found") /\
  app_name_ p' = app_name_ p /\
  final_name_ p' = final_name_ p /\
  ignore_first_ p' = ignore_first_ p.
Proof.
  cbn zeta. unfold run, exec, clear, empty, exists_, count, retrieve.
  cbn [fst snd index_ arguments_ variables_ app_name_ final_name_ ignore_first_].
  rewrite lookup_empty. repeat apply conj; reflexivity.
Qed.

(** ** [usage] and the index *)

(** X13.  [usage] never throws.  On a consistent parser it has no defined
    behaviour in exactly one situation: a final name is recorded, the
    index does not know it, and there is no descriptor at all (a final
    argument was declared and the parser was cleared); [index_[final_name_]]
    then yields 0 and [arguments_[0]] is past the end. *)
Theorem usage_undefined_iff (p : ArgumentParser) :
  consistent p ->
  ~ throws (run usage p) /\
  ((exists u, run usage p = Undefined u)
   <-> final_name_ p <> "" /\ index_ p !! final_name_ p = None
       /\ arguments_ p = []).
Proof.
  intros [Hs Hi]. unfold run, usage, index_subscript.
  destruct (empty_str (final_name_ p)) eqn:Ef; cbn [negb fst].
  - apply empty_str_true in Ef. split.
    + intros [e He]. discriminate He.
    + split; [intros [u Hu]; discriminate Hu | intros (Hne & _); congruence].
  - apply empty_str_false in Ef.
    destruct (index_ p !! final_name_ p) as [N|] eqn:E.
    + pose proof (Hi _ _ E) as Hlt.
      destruct (lookup_lt_is_Some_2 _ _ Hlt) as [arg Ha]. rewrite Ha. cbn.
      split; [intros [e He]; discriminate He|].
      split; [intros [u Hu]; discriminate Hu | intros (_ & H & _); discriminate H].
    + destruct (arguments_ p) as [|arg args] eqn:Ea; cbn.
      * split; [intros [e He]; discriminate He|].
        split; [now intros _ | intros _; eauto].
      * split; [intros [e He]; discriminate He|].
        split; [intros [u Hu]; discriminate Hu
               | intros (_ & _ & H); discriminate H].
Qed.

Lemma usage_undefined_iff_witness :
  exists u, run usage final_then_clear = Undefined u.
Proof.
  apply (proj2 (usage_undefined_iff final_then_clear
                  (consistent_clear _))).
  repeat split. discriminate.
Defined.

(** X14.  [usage] is not read-only.  When a final name is recorded that
    the index does not know, and there is a first descriptor, [usage]
    returns a string in which that first descriptor is rendered last, and
    it leaves the final name in the index, pointing at slot 0: [exists]
    answers false for the name before the call and true after it. *)
Theorem usage_indexes_final_name (p : ArgumentParser) (first : Argument) :
  final_name_ p <> "" ->
  index_ p !! final_name_ p = None ->
  arguments_ p !! 0 = Some first ->
  let p' := exec usage p in
  (exists body, run usage p = Ok (body +:+ toString first)) /\
  index_ p' = <[final_name_ p := 0]> (index_ p) /\
  arguments_ p' = arguments_ p /\ variables_ p' = variables_ p /\
  run (exists_ (final_name_ p)) p = Ok false /\
  run (exists_ (final_name_ p)) p' = Ok true.
Proof.
  intros Hf Hi Ha. cbn zeta. apply empty_str_false in Hf.
  unfold run, exec, usage, index_subscript, exists_.
  rewrite Hf, Hi, Ha. cbn [negb fst snd index_ arguments_ variables_].
  rewrite lookup_insert_eq.
  repeat apply conj; try reflexivity.
  eexists. reflexivity.
Qed.

Lemma usage_indexes_final_name_witness :
  run (exists_ "file") final_clear_declare = Ok false /\
  run (exists_ "file") (exec usage final_clear_declare) = Ok true /\
  run usage final_clear_declare = Ok "Usage:  [--all] [--all]".
Proof.
  destruct (usage_indexes_final_name final_clear_declare
              (mkArgument "" "all" true zero))
    as (_ & _ & _ & _ & Hbefore & Hafter); try reflexivity; [discriminate|].
  repeat apply conj; [exact Hbefore | exact Hafter | reflexivity].
Defined.

(** X15.  When no final name is recorded, or the index knows the final
    name, [usage] on a consistent parser returns a string and leaves the
    parser exactly as it was. *)
Theorem usage_read_only (p : ArgumentParser) :
  consistent p ->
  final_name_ p = "" \/ is_Some (index_ p !! final_name_ p) ->
  exists out, usage p = (Ok out, p).
Proof.
  intros [Hs Hi] Hfin. unfold usage, index_subscript.
  destruct (empty_str (final_name_ p)) eqn:Ef; cbn [negb]; [eauto|].
  apply empty_str_false in Ef. destruct Hfin as [Hfin | [N HN]]; [congruence|].
  rewrite HN. pose proof (Hi _ _ HN) as Hlt.
  destruct (lookup_lt_is_Some_2 _ _ Hlt) as [arg Ha]. rewrite Ha.
  eexists. f_equal. now destruct p.
Qed.

Lemma usage_read_only_witness :
  exists out, usage one_final = (Ok out, one_final).
Proof.
  apply usage_read_only.
  - unfold one_final. apply consistent_addFinalArgument, consistent_new.
  - right. exists 0. reflexivity.
Defined.

Lemma put_arguments_extends indent strs st :
  exists rest, help (put_arguments indent strs st) = help st +:+ rest.
Proof.
  revert st. induction strs as [|s strs IH]; intros st.
  - exists "". now rewrite app_nil_r_s.
  - unfold put_arguments. cbn [fold_left].
    destruct (IH (put_argument indent s st)) as [rest Hrest].
    unfold put_arguments in Hrest. rewrite Hrest.
    unfold put_argument.
    destruct (80 <? String.length s + linelength st)%nat; cbn [help];
      rewrite !app_assoc_s; eexists; reflexivity.
Qed.

(** X16.  Whatever is declared, a string returned by [usage] begins with
    "Usage: ", the program name and a space. *)
Theorem usage_begins_with_prefix (p p' : ArgumentParser) (out : string) :
  usage p = (Ok out, p') ->
  exists rest, out = "Usage: " +:+ app_name_ p +:+ " " +:+ rest.
Proof.
  assert (Hloops : exists rest, help (usage_loops p) = usage_prefix p +:+ rest).
  { pose proof (usage_loops_text p) as Ht. apply (f_equal fst) in Ht.
    unfold text in Ht. cbn [fst] in Ht. rewrite Ht.
    apply put_arguments_extends. }
  destruct Hloops as [rest Hrest].
  unfold usage, index_subscript. rewrite Hrest.
  destruct (empty_str (final_name_ p)); cbn [negb].
  - intros [= <- _]. exists rest. unfold usage_prefix.
    now rewrite !app_assoc_s.
  - destruct (index_ p !! final_name_ p) as [N|].
    + destruct (arguments_ p !! N) as [arg|]; [|discriminate].
      intros [= <- _]. unfold usage_prefix.
      destruct (80 <? _)%nat; rewrite !app_assoc_s; eexists; reflexivity.
    + destruct (arguments_ p !! 0) as [arg|]; [|discriminate].
      intros [= <- _]. unfold usage_prefix.
      destruct (80 <? _)%nat; rewrite !app_assoc_s; eexists; reflexivity.
Qed.

Lemma usage_begins_with_prefix_witness :
  exists rest,
    "Usage:  --source SOURCE" = "Usage: " +:+ app_name_ one_final +:+ " " +:+ rest.
Proof.
  apply (usage_begins_with_prefix one_final one_final). reflexivity.
Defined.

(** ** [usage]: layout *)

Lemma put_arguments_fit indent strs st :
  linelength st
  + fold_right (fun s n => String.length s + n) 0 strs <= 80 ->
  help (put_arguments indent strs st)
  = help st +:+ concat_str (map (fun s => s +:+ " ") strs).
Proof.
  revert st. induction strs as [|s strs IH]; intros st Hfit.
  - cbn. now rewrite app_nil_r_s.
  - unfold put_arguments. cbn [fold_left fold_right map concat_str] in *.
    fold (put_arguments indent strs (put_argument indent s st)).
    assert (Hput : put_argument indent s st
                   = {| help := help st +:+ s +:+ " ";
                        linelength := linelength st + String.length s;
                        cout := cout st |}).
    { unfold put_argument.
      destruct (Nat.ltb_spec 80 (String.length s + linelength st)); [lia|].
      reflexivity. }
    rewrite Hput, IH; cbn [help linelength]; [|lia].
    now rewrite !app_assoc_s.
Qed.

Lemma rendered_total_fold (args : list Argument) :
  fold_right (fun s n => String.length s + n) 0 (map toString args)
  = rendered_total args.
Proof.
  induction args as [|a args IH]; [reflexivity|].
  cbn [map fold_right]. rewrite IH. reflexivity.
Qed.

(** X17.  When no final argument is declared and the descriptors the
    loops write have at most 80 rendered characters in all, [usage] returns
    one line: the prefix, then each of these descriptors followed by one
    space, the required ones first and the optional ones after them, each
    group in declaration order. *)
Theorem usage_one_line (p : ArgumentParser) :
  final_name_ p = "" ->
  rendered_total (usage_order p) <= 80 ->
  usage p
  = (Ok (usage_prefix p
         +:+ concat_str (map (fun arg => toString arg +:+ " ")
                           (usage_order p))), p).
Proof.
  intros Hf Hfit. rewrite usage_no_final by assumption.
  pose proof (usage_loops_text p) as Ht. apply (f_equal fst) in Ht.
  unfold text in Ht. cbn [fst] in Ht. rewrite Ht, put_arguments_fit.
  - cbn [help]. now rewrite map_map.
  - cbn [linelength]. now rewrite rendered_total_fold.
Qed.

Lemma usage_one_line_witness :
  run usage (exec (addArgument2 "-o" "--out" (ascii_of_nat 1) true;;
                   addArgument "--inputs" "+" false)
                  (new_parser true))
  = Ok "Usage:  --inputs INPUTS [INPUTS...] [--out OUT] ".
Proof.
  unfold run.
  rewrite usage_one_line;
    [reflexivity | reflexivity | apply Nat.leb_le; reflexivity].
Defined.

(** X18.  Three descriptors that all have long names, no final argument,
    85 rendered characters in all: [usage] writes all three, required
    before optional, with one line break; the break stands before the
    first descriptor with which the running length passes 80 and is
    followed by as many spaces as the prefix is long.  When neither the
    program name nor a rendered descriptor contains a line break of its
    own, the returned string has exactly one. *)
Theorem usage_three_long_names (p : ArgumentParser) :
  length (arguments_ p) = 3 ->
  final_name_ p = "" ->
  Forall (fun arg => name arg <> "") (arguments_ p) ->
  rendered_total (arguments_ p) = 85 ->
  (exists e1 e2 e3,
     usage_order p = [e1; e2; e3] /\
     Permutation (arguments_ p) [e1; e2; e3] /\
     let pre := usage_prefix p in
     let brk := line_break (String.length pre) in
     let s1 := toString e1 in
     let s2 := toString e2 in
     let s3 := toString e3 in
     usage p
     = (Ok (if (80 <? String.length s1)%nat
            then pre +:+ brk +:+ s1 +:+ " " +:+ s2 +:+ " " +:+ s3 +:+ " "
            else if (80 <? String.length s1 + String.length s2)%nat
            then pre +:+ s1 +:+ " " +:+ brk +:+ s2 +:+ " " +:+ s3 +:+ " "
            else pre +:+ s1 +:+ " " +:+ s2 +:+ " " +:+ brk +:+ s3 +:+ " "),
        p)) /\
  (count_newlines (app_name_ p) = 0 ->
   Forall (fun arg => count_newlines (toString arg) = 0) (arguments_ p) ->
   exists out, usage p = (Ok out, p) /\ count_newlines out = 1).
Proof.
  intros Hlen Hf Hall Htot. split.
  - now apply usage_wraps_three_long_names.
  - intros Happ Hnl. now apply usage_three_long_names_one_break.
Qed.

Lemma usage_three_long_names_witness :
  exists out,
    usage three_long_names = (Ok out, three_long_names) /\
    count_newlines out = 1.
Proof.
  apply (usage_three_long_names three_long_names).
  - reflexivity.
  - reflexivity.
  - repeat constructor; discriminate.
  - reflexivity.
  - reflexivity.
  - repeat constructor.
Defined.

Lemma filter_filter_implied {A} (f g : A -> bool) (l : list A) :
  (forall x, f x = true -> g x = true) ->
  List.filter f (List.filter g l) = List.filter f l.
Proof.
  intros Himp. induction l as [|x l IH]; [reflexivity|].
  cbn [List.filter]. destruct (g x) eqn:Eg; cbn [List.filter].
  - now rewrite IH.
  - destruct (f x) eqn:Ef; [|exact IH].
    apply Himp in Ef. congruence.
Qed.

Lemma eqb_empty_str (s : string) : String.eqb s "" = empty_str s.
Proof. now destruct s. Qed.

(** X19.  With no final argument declared, [usage] takes no notice of the
    descriptors that have a short name only: it returns the string it
    returns when they are not in the descriptor list at all. *)
Theorem usage_ignores_short_names (p : ArgumentParser) :
  final_name_ p = "" ->
  run usage p
  = run usage
      (with_arguments
         (List.filter (fun arg => negb (empty_str (name arg))) (arguments_ p))
         p).
Proof.
  intros Hf. unfold run.
  rewrite !usage_no_final by assumption. cbn [fst]. f_equal.
  pose proof (usage_loops_text p) as Ht.
  pose proof (usage_loops_text
                (with_arguments
                   (List.filter (fun arg => negb (empty_str (name arg)))
                      (arguments_ p)) p)) as Ht'.
  apply (f_equal fst) in Ht, Ht'. unfold text in Ht, Ht'.
  cbn [fst] in Ht, Ht'. rewrite Ht, Ht'. f_equal.
  unfold usage_order, with_arguments.
  cbn [final_name_ arguments_]. rewrite Hf.
  rewrite !filter_filter_implied; [reflexivity | |];
    intros arg; unfold listed_required, listed_optional;
    rewrite eqb_empty_str; intros H; apply andb_true_iff in H; tauto.
Qed.

Lemma usage_ignores_short_names_witness :
  run usage (short_names_only false)
  = run usage (with_arguments [] (short_names_only false)).
Proof.
  apply (usage_ignores_short_names (short_names_only false)). reflexivity.
Defined.

(** X20.  Declaring a final argument under a non-empty name and asking for
    the usage string right away: the call returns, the string ends with the
    rendering of the new descriptor, and the name resolves to the new
    slot. *)
Theorem final_rendered_last (p : ArgumentParser) (nm : string) (n : ascii)
    (opt : bool) :
  nm <> "" ->
  let p' := exec (addFinalArgument nm n opt) p in
  index_ p' !! nm = Some (length (arguments_ p)) /\
  exists body,
    run (addFinalArgument nm n opt;; usage) p
    = Ok (body +:+ toString (mkArgument "" nm opt n)).
Proof.
  intros Hne. cbn zeta.
  set (q := {| index_ := index_ p;
               ignore_first_ := ignore_first_ p;
               app_name_ := app_name_ p;
               final_name_ := nm;
               arguments_ := arguments_ p;
               variables_ := variables_ p |}).
  set (arg := mkArgument "" nm opt n).
  change (exec (addFinalArgument nm n opt) p) with (exec (insertArgument arg) q).
  assert (Hi : index_ (exec (insertArgument arg) q) !! nm
               = Some (length (arguments_ p))).
  { apply (insertArgument_index_new arg q nm). split; [exact Hne | now right]. }
  split; [exact Hi|].
  assert (Ha : arguments_ (exec (insertArgument arg) q) !! length (arguments_ p)
               = Some arg).
  { rewrite insertArgument_arguments. now apply list_lookup_middle. }
  pose proof (usage_final_last (exec (insertArgument arg) q)
                (length (arguments_ p)) arg) as Hu.
  cbn zeta in Hu.
  eexists. unfold run.
  rewrite (bind_Ok _ _ p tt (exec (insertArgument arg) q)) by reflexivity.
  rewrite Hu; [reflexivity | exact Hne | exact Hi | exact Ha].
Qed.

Lemma final_rendered_last_witness :
  exists body,
    run (addFinalArgument "file" (ascii_of_nat 1) false;; usage) one_long_name
    = Ok (body +:+ "--file FILE").
Proof.
  apply (final_rendered_last one_long_name "file" (ascii_of_nat 1) false).
  discriminate.
Defined.

(** ** [parse] once more *)

(** X21.  [parse] looks at the first token only; parsing the same tokens a
    second time changes nothing; and once the program name is non-empty no
    [parse] changes the parser again. *)
Theorem parse_first_token_only (argv argv' : list string)
    (p : ArgumentParser) :
  parse argv p = parse (take 1 argv) p /\
  exec (parse argv) (exec (parse argv) p) = exec (parse argv) p /\
  (app_name_ (exec (parse argv) p) <> "" ->
   exec (parse argv') (exec (parse argv) p) = exec (parse argv) p).
Proof.
  refine (conj _ (conj _ _)).
  - now destruct argv.
  - unfold exec, parse. destruct argv as [|argv0 rest]; [reflexivity|].
    destruct (empty_str (app_name_ p)) eqn:En;
      destruct (ignore_first_ p) eqn:Ei; cbn; rewrite ?En, ?Ei; cbn;
      try reflexivity.
    now destruct (empty_str argv0).
  - intros Hne. apply empty_str_false in Hne.
    unfold exec at 1. unfold parse at 1.
    destruct argv'; [reflexivity|]. now rewrite Hne.
Qed.

Lemma parse_first_token_only_witness :
  exec (parse ["other"; "-x"]) (exec (parse ["prog"; "-x"]) (new_parser false))
  = exec (parse ["prog"; "-x"]) (new_parser false).
Proof.
  apply (proj2 (proj2 (parse_first_token_only ["prog"; "-x"] ["other"; "-x"]
                         (new_parser false)))).
  discriminate.
Defined.

(** ** What [usage] prints *)

Lemma put_argument_cout indent argstr st :
  cout (put_argument indent argstr st) = cout st.
Proof.
  unfold put_argument.
  now destruct (80 <? String.length argstr + linelength st)%nat.
Qed.

Lemma required_arguments_cout final_name indent args st :
  cout (required_arguments final_name indent args st) = cout st.
Proof.
  revert st. induction args as [|arg args IH]; intros st; [reflexivity|].
  cbn [required_arguments].
  destruct (optional arg); [apply IH|].
  destruct (String.eqb (name arg) final_name); [apply IH|].
  now rewrite IH, put_argument_cout.
Qed.

Lemma optional_arguments_cout final_name indent args st :
  exists printed,
    cout (optional_arguments final_name indent args st)
    = (cout st ++ printed)%list /\
    length printed
    = length (List.filter (listed_optional final_name) args) /\
    Forall (fun k => k < 80) printed.
Proof.
  revert st. induction args as [|arg args IH]; intros st.
  - exists []. cbn. now rewrite app_nil_r.
  - cbn [optional_arguments List.filter].
    assert (Hl : listed_optional final_name arg
                 = optional arg && negb (String.eqb (name arg) final_name))
      by reflexivity.
    rewrite Hl. clear Hl.
    destruct (optional arg); cbn [negb andb]; [|apply IH].
    destruct (String.eqb (name arg) final_name); cbn [negb]; [apply IH|].
    match goal with
    | |- context [optional_arguments _ _ _ ?st'] =>
        destruct (IH st') as (printed & Hc & Hl & Hall)
    end.
    exists (String.length (help st) mod 80 :: printed).
    rewrite Hc, put_argument_cout. cbn [cout length].
    repeat apply conj.
    + now rewrite <- app_assoc.
    + now rewrite Hl.
    + constructor; [|exact Hall]. apply Nat.mod_upper_bound. lia.
Qed.

(** X22.  Besides returning a string, one call of [usage] writes to
    [std::cout]: one number below 80 for each optional descriptor of the
    second loop, and nothing for the required descriptors or the final
    one. *)
Theorem usage_prints (p : ArgumentParser) :
  length (usage_cout p)
  = length (List.filter (listed_optional (final_name_ p)) (arguments_ p)) /\
  Forall (fun k => k < 80) (usage_cout p).
Proof.
  unfold usage_cout, usage_loops.
  match goal with
  | |- context [optional_arguments ?f ?i ?a ?st] =>
      destruct (optional_arguments_cout f i a st) as (printed & Hc & Hl & Hall);
      rewrite Hc
  end.
  rewrite required_arguments_cout. cbn [cout app]. now split.
Qed.

(** ** The [nargs] character *)

(** X23.  The constructor reads [nargs] as a character first: '*' (42)
    and '+' (43) always make a variable-arity descriptor, so no declaration
    yields a fixed count of 42 or 43; every other value from 0 to 127 is
    the fixed count itself. *)
Theorem no_fixed_count_42_43 (sn ln : string) (opt : bool) (n : ascii) :
  nargs (mkArgument sn ln opt n) <> fixed_nargs 42 /\
  nargs (mkArgument sn ln opt n) <> fixed_nargs 43 /\
  nargs (mkArgument sn ln opt (ascii_of_nat 42)) = variable_nargs "*" /\
  nargs (mkArgument sn ln opt (ascii_of_nat 43)) = variable_nargs "+" /\
  ((N_of_ascii n < 128)%N -> n <> "*"%char -> n <> "+"%char ->
   nargs (mkArgument sn ln opt n) = fixed_nargs (N_of_ascii n)).
Proof.
  refine (conj _ (conj _ (conj _ (conj _ _)))); try reflexivity.
  - destruct n as [[] [] [] [] [] [] [] []]; cbn; discriminate.
  - destruct n as [[] [] [] [] [] [] [] []]; cbn; discriminate.
  - intros Hlt Hstar Hplus. unfold mkArgument. cbn [nargs].
    destruct (Ascii.eqb_spec n "+") as [-> | _]; [congruence|].
    destruct (Ascii.eqb_spec n "*") as [-> | _]; [congruence|].
    cbn [orb]. unfold size_t_of_char.
    destruct (N.ltb_spec (N_of_ascii n) 128); [reflexivity | lia].
Qed.

Lemma no_fixed_count_42_43_witness :
  nargs (mkArgument "" "n" true (ascii_of_nat 7)) = fixed_nargs 7.
Proof.
  apply (proj2 (proj2 (proj2 (proj2
           (no_fixed_count_42_43 "" "n" true (ascii_of_nat 7)))))).
  - reflexivity.
  - discriminate.
  - discriminate.
Defined.

Lemma exists_retrieve_agree_witness :
  run (exists_ "x") (new_parser false) = Ok false /\
  retrieve ty_string "x" (new_parser false)
  = (Throw (out_of_range "Key not found"), new_parser false).
Proof.
  destruct (exists_retrieve_agree (new_parser false) "x" ty_string)
    as [Hiff Hempty].
  assert (H : run (exists_ "x") (new_parser false) = Ok false)
    by (apply Hempty; reflexivity).
  split; [exact H | now apply Hiff].
Defined.

(** ** The empty [Any] and the parser *)

Lemma consistent_perform (c : call) (p : ArgumentParser) :
  consistent p ->
  (forall u, run (perform c) p <> Undefined u) ->
  consistent (exec (perform c) p).
Proof.
  intros Hc Hdef. destruct c; cbn [perform] in *.
  - destruct Hc as [Hs Hi]. now split.
  - now apply consistent_addArgument.
  - now apply consistent_addArgument2.
  - now apply consistent_addFinalArgument.
  - destruct Hc as [Hs Hi]. now split.
  - now apply consistent_parse.
  - now rewrite discard_exec, retrieve_exec.
  - rewrite discard_exec. apply usage_exec_consistent; [exact Hc|].
    intros u Hu. apply (Hdef u). now apply discard_undefined.
  - now rewrite discard_exec.
  - apply consistent_clear.
  - now rewrite discard_exec.
  - now rewrite discard_exec, count_exec.
Qed.

Lemma reachable_slots_initial (p : ArgumentParser) :
  reachable p -> consistent p.
Proof.
  induction 1 as [b | c p Hr IH Hdef].
  - apply consistent_new.
  - now apply consistent_perform.
Qed.

Lemma slot_of_holds (arg : Argument) (T : type_info_t) :
  content (slot_of arg) <> None /\
  forall u, castTo T (slot_of arg) <> Undefined u.
Proof.
  unfold slot_of. destruct (fixed arg); split; try discriminate;
    intros u; destruct T; discriminate.
Qed.

Lemma retrieve_defined (p : ArgumentParser) (T : type_info_t) (nm : string) :
  consistent p -> forall u, run (retrieve T nm) p <> Undefined u.
Proof.
  intros Hc u. destruct (index_ p !! nm) as [N|] eqn:E.
  - destruct (retrieve_consistent p T nm N Hc E) as (arg & _ & Hr & _).
    unfold run. rewrite Hr. apply slot_of_holds.
  - unfold run, retrieve. rewrite E. discriminate.
Qed.

Lemma count_defined (p : ArgumentParser) (nm : string) :
  consistent p -> forall u, run (count nm) p <> Undefined u.
Proof.
  intros [Hs Hi] u. unfold run, count.
  destruct (index_ p !! nm) as [N|] eqn:E; [|discriminate].
  apply Hi in E. destruct (lookup_lt_is_Some_2 _ _ E) as [arg Ha].
  rewrite Ha, Hs, list_lookup_fmap, Ha. cbn [fmap option_fmap option_map].
  unfold slot_of. destruct (fixed arg); discriminate.
Qed.

(** C7, as amended.  Extraction from a default-constructed [Any] raises no
    error, whatever shape is asked for: [toPtr] goes through the null
    [content] and the call has no defined behaviour.  The parser never
    makes such a call: in every parser a client can reach each slot holds a
    value, and [retrieve] and [count] return or throw for every name and
    every shape. *)
Theorem default_Any_not_extracted (T : type_info_t) (p : ArgumentParser)
    (nm : string) :
  castTo T Any_default = Undefined null_dereference /\
  ~ throws (castTo T Any_default) /\
  (reachable p ->
   Forall (fun v => content v <> None) (variables_ p) /\
   (forall u, run (retrieve T nm) p <> Undefined u) /\
   (forall u, run (count nm) p <> Undefined u)).
Proof.
  refine (conj eq_refl (conj _ _)).
  - intros [e He]. discriminate He.
  - intros Hr. apply reachable_slots_initial in Hr.
    refine (conj _ (conj _ _)).
    + destruct Hr as [Hs _]. rewrite Hs. apply Forall_forall.
      intros v Hv. apply list_elem_of_fmap in Hv as (arg & -> & _).
      apply (slot_of_holds arg T).
    + now apply retrieve_defined.
    + now apply count_defined.
Qed.

Lemma default_Any_not_extracted_witness :
  Forall (fun v => content v <> None) (variables_ one_long_name) /\
  run (retrieve ty_vector "name") one_long_name <> Undefined null_dereference.
Proof.
  destruct (default_Any_not_extracted ty_vector one_long_name "name")
    as (_ & _ & H).
  destruct H as (Hslots & Hretrieve & _).
  - apply (reachable_call (call_addArgument "--name" zero true)
             (new_parser false)).
    + apply reachable_new.
    + discriminate.
  - split; [exact Hslots | apply Hretrieve].
Defined.

(** C7, as stated, fails: extraction of a string from a default-constructed
    [Any] throws nothing, so it does not fail with an error of any kind. *)
Lemma castTo_default_no_error :
  castTo ty_string Any_default = Undefined null_dereference /\
  ~ throws (castTo ty_string Any_default).
Proof.
  split; [reflexivity|]. intros [e He]. discriminate He.
Qed.
